(** * Str: string helpers of core-utils (src/Str.ts)

    A shallow embedding of the static methods of the class [Str] and the
    properties established about them.

    A JavaScript string is a sequence of UTF-16 code units; it is modelled as a
    list of code units, each an [N].  The methods of the host that depend on
    the Unicode character database ([toLowerCase], [toUpperCase],
    [normalize]) and the rendering of a number as text are not part of the
    repository: they are the fields of the class [Engine], together with the
    few facts about them that the development uses, all of which hold of every
    ECMAScript engine.  [BasicLatinEngine] is an executable instance.

    The file has two layers.  Module [Str] is the class as it behaves on
    arguments of the documented types (strings, an optional numeric position).
    Module [Dyn] adds what an untyped caller can observe: the coercions done
    by [String(...)], and the [TypeError] of a method call on a receiver that
    has no such method. *)

From Stdlib Require Import List Bool Arith NArith ZArith QArith Qround Lia.
From Stdlib Require Strings.String Strings.Ascii.
Import ListNotations String.StringSyntax.

Set Implicit Arguments.
Close Scope Q_scope.
Delimit Scope string_scope with string.

(** ** Code units and strings *)

Abbreviation codeunit := N.
Definition str := list codeunit.

(** [lit "abc"] is the string whose code units are the character codes of the
    literal (literals of this file are Basic Latin). *)
Definition lit (s : String.string) : str :=
  List.map Ascii.N_of_ascii (String.list_ascii_of_string s).
Arguments lit s%_string.

Definition space : codeunit := 32%N.
Definition underscore : codeunit := 95%N.
Definition dollar : codeunit := 36%N.
Definition ampersand : codeunit := 38%N.
Definition apostrophe : codeunit := 39%N.
Definition backtick : codeunit := 96%N.

Definition inRange (lo hi c : codeunit) : bool :=
  (N.leb lo c && N.leb c hi)%bool.
Arguments inRange (lo hi c)%_N.

(** The regular-expression class [\s]: WhiteSpace and LineTerminator of
    ECMAScript. *)
Definition isWhiteSpace (c : codeunit) : bool :=
  (inRange 9 13 c || N.eqb c 32 || N.eqb c 160 || N.eqb c 5760
   || inRange 8192 8202 c || N.eqb c 8232 || N.eqb c 8233 || N.eqb c 8239
   || N.eqb c 8287 || N.eqb c 12288 || N.eqb c 65279)%bool%N.

(** What [.] does not match: the line terminators LF, CR, LS and PS. *)
Definition isLineTerminator (c : codeunit) : bool :=
  (N.eqb c 10 || N.eqb c 13 || N.eqb c 8232 || N.eqb c 8233)%bool%N.

(** The class [[A-Z]]. *)
Definition isUpperAZ (c : codeunit) : bool := inRange 65 90 c.

(** The class [[a-z]]. *)
Definition isLowerAZ (c : codeunit) : bool := inRange 97 122 c.

(** The class of the combining diacritical marks, U+0300 to U+036F. *)
Definition isCombiningMark (c : codeunit) : bool := inRange 768 879 c.

Definition isBasicLatin (c : codeunit) : bool := N.ltb c 128%N.

(** Case mapping of one Basic Latin code unit. *)
Definition lowerLatin (c : codeunit) : codeunit :=
  if isUpperAZ c then (c + 32)%N else c.

Definition upperLatin (c : codeunit) : codeunit :=
  if isLowerAZ c then (c - 32)%N else c.

Fixpoint streq (a b : str) : bool :=
  match a, b with
  | [], [] => true
  | x :: a', y :: b' => (N.eqb x y && streq a' b')%bool
  | _, _ => false
  end.

(** ** Numbers

    A Number is NaN, an infinity or a finite value.  Every finite double is a
    rational, so finite values are modelled in [Q]; the two zeros of a double
    are not told apart (both are falsy and both convert to index 0). *)

Inductive number : Type :=
| NaN
| Infinity (negative : bool)
| Finite (q : Q).

Definition ofZ (z : Z) : number := Finite (inject_Z z).
Definition ofNat (n : nat) : number := ofZ (Z.of_nat n).

(** [ToBoolean] of a number. *)
Definition truthy (n : number) : bool :=
  match n with
  | NaN => false
  | Infinity _ => true
  | Finite q => negb (Qeq_bool q 0%Q)
  end.

(** The global [isFinite]. *)
Definition isFinite (n : number) : bool :=
  match n with Finite _ => true | _ => false end.

(** [Math.floor]. *)
Definition floor (n : number) : number :=
  match n with Finite q => ofZ (Qfloor q) | _ => n end.

(** [===] on numbers: NaN differs from everything, itself included. *)
Definition strictEq (a b : number) : bool :=
  match a, b with
  | Finite p, Finite q => Qeq_bool p q
  | Infinity s, Infinity t => Bool.eqb s t
  | _, _ => false
  end.

(** [a > b], for [b] finite. *)
Definition greaterThan (a : number) (b : Z) : bool :=
  match a with
  | NaN => false
  | Infinity negative => negb negative
  | Finite q => negb (Qle_bool q (inject_Z b))
  end.

(** [ToIntegerOrInfinity] followed by the clamp to [0 .. len] that
    [String.prototype.indexOf] applies to its position argument. *)
Definition clampPosition (n : number) (len : nat) : nat :=
  match n with
  | NaN => 0
  | Infinity negative => if negative then 0 else len
  | Finite q =>
      let t := if Qle_bool 0%Q q then Qfloor q else Qceiling q in
      Nat.min (Z.to_nat t) len
  end.

(** [a - b].  Finite values are subtracted exactly; a double rounds once the
    magnitude exceeds 2^53, which changes neither the sign of the result nor
    whether it is an index of a string. *)
Definition subtract (a b : number) : number :=
  match a, b with
  | NaN, _ | _, NaN => NaN
  | Finite p, Finite q => Finite (p - q)%Q
  | Infinity s, Infinity t => if Bool.eqb s t then NaN else Infinity s
  | Infinity s, Finite _ => Infinity s
  | Finite _, Infinity t => Infinity (negb t)
  end.

(** ** Host built-ins *)

Class Engine : Type := {
  (** [String.prototype.toLowerCase] *)
  toLowerCase : str -> str;
  (** [String.prototype.toUpperCase] *)
  toUpperCase : str -> str;
  (** [String.prototype.normalize('NFD')] *)
  normalizeNFD : str -> str;
  (** [Number::toString], as applied by [String(n)] *)
  numberToString : number -> str;
  (** On Basic Latin text the case mappings act code unit by code unit. *)
  toLowerCase_latin :
    forall s, forallb isBasicLatin s = true -> toLowerCase s = List.map lowerLatin s;
  toUpperCase_latin :
    forall s, forallb isBasicLatin s = true -> toUpperCase s = List.map upperLatin s;
  (** No case mapping produces a space out of other characters. *)
  toLowerCase_space :
    forall s, In space (toLowerCase s) -> In space s;
  toUpperCase_space :
    forall s, In space (toUpperCase s) -> In space s;
  (** Basic Latin text has no canonical decomposition. *)
  normalizeNFD_latin :
    forall s, forallb isBasicLatin s = true -> normalizeNFD s = s
}.

(** ** Generic list helpers used by the embedding *)

Section ListHelpers.
Variable A : Type.

Fixpoint dropWhile (p : A -> bool) (l : list A) : list A :=
  match l with
  | [] => []
  | x :: r => if p x then dropWhile p r else l
  end.

(** [arr[i] = x].  The loop of [capitalizeAll] writes inside the array only;
    past the end, where JavaScript would extend the array, the list is left
    as it is. *)
Fixpoint setAt (i : nat) (x : A) (l : list A) : list A :=
  match l, i with
  | [], _ => []
  | _ :: r, O => x :: r
  | y :: r, S j => y :: setAt j x r
  end.

(** [Array.prototype.reduce] with the callback receiving the index. *)
Fixpoint reduceFrom (B : Type) (f : B -> A -> nat -> B) (i : nat)
         (l : list A) (acc : B) : B :=
  match l with
  | [] => acc
  | x :: r => reduceFrom f (S i) r (f acc x i)
  end.

Definition reduce (B : Type) (f : B -> A -> nat -> B) (l : list A) (init : B) : B :=
  reduceFrom f 0 l init.
End ListHelpers.

(** ** String primitives of the host that need no Unicode data *)

(** [s.split(sep)] for a separator of one code unit: the fields between the
    occurrences of [sep]; never the empty array. *)
Fixpoint split (sep : codeunit) (s : str) : list str :=
  match s with
  | [] => [[]]
  | c :: r =>
      if N.eqb c sep then [] :: split sep r
      else match split sep r with
           | w :: ws => (c :: w) :: ws
           | [] => [[c]]
           end
  end.

(** [arr.join(sep)]. *)
Fixpoint join (sep : str) (l : list str) : str :=
  match l with
  | [] => []
  | [w] => w
  | w :: ws => w ++ sep ++ join sep ws
  end.

Fixpoint isPrefix (p s : str) : bool :=
  match p, s with
  | [], _ => true
  | _ :: _, [] => false
  | x :: p', y :: s' => (N.eqb x y && isPrefix p' s')%bool
  end.

(** Search of [sub] in [s] (whose first code unit has index [i]): the least
    index of an occurrence, or -1. *)
Fixpoint indexOfAt (sub s : str) (i : Z) : Z :=
  if isPrefix sub s then i
  else match s with
       | [] => (-1)%Z
       | _ :: r => indexOfAt sub r (i + 1)%Z
       end.

(** [s.indexOf(sub, position)]. *)
Definition indexOf (s sub : str) (position : number) : Z :=
  let start := clampPosition position (length s) in
  indexOfAt sub (skipn start s) (Z.of_nat start).

(** [s.charAt(0)] and [s.slice(1)]. *)
Definition charAt0 (s : str) : str :=
  match s with [] => [] | c :: _ => [c] end.

Definition slice1 (s : str) : str := tl s.

(** [GetSubstitution] for a pattern without capture groups: in the
    replacement text, [$$] is a dollar sign, [$&] the matched text, [$`] the
    text before the match and [$'] the text after it; every other
    dollar sign stands for itself. *)
Fixpoint getSubstitution (matched before after template : str) : str :=
  match template with
  | [] => []
  | c :: r =>
      if N.eqb c dollar then
        match r with
        | d :: r' =>
            if N.eqb d dollar then dollar :: getSubstitution matched before after r'
            else if N.eqb d ampersand then matched ++ getSubstitution matched before after r'
            else if N.eqb d backtick then before ++ getSubstitution matched before after r'
            else if N.eqb d apostrophe then after ++ getSubstitution matched before after r'
            else c :: getSubstitution matched before after r
        | [] => [c]
        end
      else c :: getSubstitution matched before after r
  end.

(** [s.replaceAll(pat, replacement)] for a pattern of one code unit and a
    replacement text that holds no dollar sign. *)
Definition replaceAll (pat : codeunit) (replacement : str) (s : str) : str :=
  flat_map (fun c => if N.eqb c pat then replacement else [c]) s.

(** ** Values, statements and completions *)

(** The values an untyped caller may pass.  [VObject tag] is an object that
    has no string methods of its own and inherits [Object.prototype.toString];
    [tag] is its built-in tag ([Object] for a plain object). *)
Inductive value : Type :=
| VUndefined
| VNull
| VBoolean (b : bool)
| VNumber (n : number)
| VString (s : str)
| VObject (tag : str).

(** A function body is a list of statements; its result is the operand of
    the first [return], and [undefined] when control reaches the end. *)
Inductive statement : Type :=
| ExpressionStatement (v : value)
| ReturnStatement (v : value).

Fixpoint runBody (body : list statement) : value :=
  match body with
  | [] => VUndefined
  | ExpressionStatement _ :: rest => runBody rest
  | ReturnStatement v :: _ => v
  end.

Inductive exception : Type := TypeError.

Inductive completion (A : Type) : Type :=
| Normal (a : A)
| Throw (e : exception).
Arguments Normal {A} a.
Arguments Throw {A} e.

Definition bind {A B : Type} (c : completion A) (k : A -> completion B) : completion B :=
  match c with
  | Normal a => k a
  | Throw e => Throw e
  end.

Notation "x <- c ;; k" := (bind c (fun x => k))
  (at level 61, c at next level, right associativity).

Definition completes {A : Type} (c : completion A) : bool :=
  match c with Normal _ => true | Throw _ => false end.

(** ** The class Str on arguments of the documented types *)

Module Str.
Section WithEngine.
Context {E : Engine}.

(** [.replace(/^\s+/, '')] *)
Definition replaceLeadingWhiteSpace (s : str) : str :=
  dropWhile isWhiteSpace s.

(** [.replace(/\s+$/, '')]: the match starts at the first index from which
    only white space follows up to the end. *)
Fixpoint replaceTrailingWhiteSpace (s : str) : str :=
  match s with
  | [] => []
  | c :: r =>
      if forallb isWhiteSpace (c :: r) then []
      else c :: replaceTrailingWhiteSpace r
  end.

Definition trim (s : str) : str :=
  replaceTrailingWhiteSpace (replaceLeadingWhiteSpace s).

Definition capitalize (s : str) : str :=
  let s := trim s in
  toUpperCase (charAt0 s) ++ toLowerCase (slice1 s).

Definition camel (s : str) : str :=
  reduce (fun acc word i => acc ++ (if Nat.eqb i 0 then word else capitalize word))
         (split space (toLowerCase (trim s))) [].

(** [.replace(/ /g, sep)]: [before] is the text already scanned. *)
Fixpoint replaceSpaces (before s sep : str) : str :=
  match s with
  | [] => []
  | c :: r =>
      if N.eqb c space
      then getSubstitution [space] before r sep ++ replaceSpaces (before ++ [c]) r sep
      else c :: replaceSpaces (before ++ [c]) r sep
  end.

(** The chain of calls that makes up the body of [slugify]. *)
Definition slugifyChain (s sep : str) : str :=
  filter (fun c => negb (isCombiningMark c))
         (normalizeNFD (replaceSpaces [] (toLowerCase (trim s)) sep)).

(** The body of [slugify] is one expression statement; [sep] defaults to
    ['-']. *)
Definition slugify (s : str) (sep : option str) : value :=
  let sep := match sep with Some d => d | None => lit "-" end in
  runBody [ExpressionStatement (VString (slugifyChain s sep))].

Definition count (s : str) : nat := length s.

(** The test that resets [pos] to the length of the text. *)
Definition resetsPosition (pos : option number) (len : nat) : bool :=
  match pos with
  | None => true
  | Some n =>
      negb (truthy n) || negb (isFinite n) || negb (strictEq (floor n) n)
      || greaterThan n (Z.of_nat len)
  end.

Definition endsWith (s substring : str) (pos : option number) : bool :=
  let pos :=
    match pos with
    | Some n => if resetsPosition pos (length s) then ofNat (length s) else n
    | None => ofNat (length s)
    end in
  let pos := subtract pos (ofNat (length substring)) in
  let index := indexOf s substring (subtract pos (ofZ 1)) in
  negb (Z.eqb index (-1)) && strictEq (ofZ index) pos.

(** [pos || 0] *)
Definition orZero (pos : option number) : number :=
  match pos with
  | Some n => if truthy n then n else ofZ 0
  | None => ofZ 0
  end.

Definition startsWith (s sub : str) (pos : option number) : bool :=
  strictEq (ofZ (indexOf s sub (orZero pos))) (orZero pos).

Definition lower (s : str) : str := toLowerCase s.
Definition upper (s : str) : str := toUpperCase s.

(** The loop [for (i = 0; i < stringArr.length; i++)] of [capitalizeAll],
    with [n] iterations left. *)
Fixpoint capitalizeLoop (n i : nat) (stringArr : list str) : list str :=
  match n with
  | O => stringArr
  | S n' => capitalizeLoop n' (S i) (setAt i (capitalize (nth i stringArr [])) stringArr)
  end.

Definition capitalizeAll (s : str) : str :=
  let stringArr := split space s in
  join [space] (capitalizeLoop (length stringArr) 0 stringArr).

(** [.replace(/_+(.?)/g, (_, p1) => p1.toUpperCase())].  [afterUnderscores]
    says that the scan stands behind a run of underscores: the next code
    unit is the group [p1] unless it is a line terminator, in which case
    (as at the end of the text) [p1] is empty. *)
Fixpoint snakeToCamelScan (afterUnderscores : bool) (s : str) : str :=
  match s with
  | [] => if afterUnderscores then toUpperCase [] else []
  | c :: r =>
      if N.eqb c underscore then snakeToCamelScan true r
      else if afterUnderscores then
        if isLineTerminator c
        then toUpperCase [] ++ c :: snakeToCamelScan false r
        else toUpperCase [c] ++ snakeToCamelScan false r
      else c :: snakeToCamelScan false r
  end.

Definition snakeToCamel (s : str) : str := snakeToCamelScan false s.

(** [.replace(/(^[A-Z])/, (_, p1) => p1.toLowerCase())] *)
Definition lowerFirstUpper (s : str) : str :=
  match s with
  | c :: r => if isUpperAZ c then toLowerCase [c] ++ r else s
  | [] => []
  end.

(** The replacement of one match [run] of [/([A-Z]+)/g]. *)
Definition replaceRun (run : str) : str :=
  match run with
  | [] => []
  | _ :: _ => underscore :: toLowerCase run
  end.

(** [.replace(/([A-Z]+)/g, (_, p1) => `_${p1.toLowerCase()}`)]: [run] is
    the run of capitals that the scan is inside of. *)
Fixpoint replaceUpperRuns (run s : str) : str :=
  match s with
  | [] => replaceRun run
  | c :: r =>
      if isUpperAZ c then replaceUpperRuns (run ++ [c]) r
      else replaceRun run ++ c :: replaceUpperRuns [] r
  end.

Definition snake (s : str) : str :=
  replaceUpperRuns [] (lowerFirstUpper s).

Definition words (s : str) : str :=
  replaceAll underscore [space] (snake s).

Definition title (s : str) : str :=
  capitalizeAll (words s).

(** [Object.prototype.toString.call(obj)] *)
Definition objectToString (obj : value) : str :=
  lit "[object " ++
  match obj with
  | VUndefined => lit "Undefined"
  | VNull => lit "Null"
  | VBoolean _ => lit "Boolean"
  | VNumber _ => lit "Number"
  | VString _ => lit "String"
  | VObject tag => tag
  end ++ lit "]".

Definition detectObject (obj : value) : bool :=
  if streq (objectToString obj) (lit "[object Object]") then true else false.

End WithEngine.
End Str.

(** ** The class Str as an untyped caller sees it *)

Module Dyn.
Section WithEngine.
Context {E : Engine}.

(** [String(v)] *)
Definition toString (v : value) : str :=
  match v with
  | VUndefined => lit "undefined"
  | VNull => lit "null"
  | VBoolean b => if b then lit "true" else lit "false"
  | VNumber n => numberToString n
  | VString s => s
  | VObject _ => Str.objectToString v
  end.

(** The receiver of a call [v.m(...)] of a method [m] of
    [String.prototype]: only a string has the method. *)
Definition stringReceiver (v : value) : completion str :=
  match v with
  | VString s => Normal s
  | _ => Throw TypeError
  end.

(** [v.length]: reading a property of [undefined] or [null] throws; values
    other than strings have no such property. *)
Definition getLength (v : value) : completion value :=
  match v with
  | VUndefined | VNull => Throw TypeError
  | VString s => Normal (VNumber (ofNat (length s)))
  | _ => Normal VUndefined
  end.

(** [ToNumber] of the result of [getLength]. *)
Definition lengthToNumber (v : value) : number :=
  match v with
  | VNumber n => n
  | _ => NaN
  end.

Definition trim (v : value) : completion value :=
  s <- stringReceiver v ;; Normal (VString (Str.trim s)).

Definition capitalize (v : value) : completion value :=
  s <- stringReceiver v ;; Normal (VString (Str.capitalize s)).

Definition camel (v : value) : completion value :=
  s <- stringReceiver v ;; Normal (VString (Str.camel s)).

(** [sep] is the replacement argument of [replace], which converts it to a
    string; the default applies when it is missing or [undefined]. *)
Definition slugify (v : value) (sep : option value) : completion value :=
  s <- stringReceiver v ;;
  Normal (Str.slugify s match sep with
                        | None | Some VUndefined => None
                        | Some d => Some (toString d)
                        end).

Definition count (v : value) : completion value :=
  Normal (VNumber (ofNat (Str.count (toString v)))).

Definition endsWith (v substring : value) (pos : option number) : completion value :=
  let s := toString v in
  let pos :=
    match pos with
    | Some n => if Str.resetsPosition pos (length s) then ofNat (length s) else n
    | None => ofNat (length s)
    end in
  len <- getLength substring ;;
  let pos := subtract pos (lengthToNumber len) in
  let index := indexOf s (toString substring) (subtract pos (ofZ 1)) in
  Normal (VBoolean (negb (Z.eqb index (-1)) && strictEq (ofZ index) pos)).

Definition startsWith (v sub : value) (pos : option number) : completion value :=
  Normal (VBoolean (Str.startsWith (toString v) (toString sub) pos)).

Definition lower (v : value) : completion value :=
  Normal (VString (Str.lower (toString v))).

Definition upper (v : value) : completion value :=
  Normal (VString (Str.upper (toString v))).

Definition capitalizeAll (v : value) : completion value :=
  s <- stringReceiver v ;; Normal (VString (Str.capitalizeAll s)).

Definition snakeToCamel (v : value) : completion value :=
  s <- stringReceiver v ;; Normal (VString (Str.snakeToCamel s)).

Definition snake (v : value) : completion value :=
  s <- stringReceiver v ;; Normal (VString (Str.snake s)).

Definition detectObject (v : value) : completion value :=
  Normal (VBoolean (Str.detectObject v)).

Definition words (v : value) : completion value :=
  w <- snake v ;;
  s <- stringReceiver w ;; Normal (VString (replaceAll underscore [space] s)).

Definition title (v : value) : completion value :=
  w <- words v ;; capitalizeAll w.

End WithEngine.
End Dyn.

(** ** An executable engine for Basic Latin text *)

(** Decimal digits of a natural number, least significant first. *)
Fixpoint digitsRev (fuel : nat) (n : N) : str :=
  match fuel with
  | O => []
  | S f =>
      (48 + N.modulo n 10)%N ::
      (if N.ltb n 10 then [] else digitsRev f (N.div n 10))
  end.

Definition integerToString (z : Z) : str :=
  let n := Z.abs_N z in
  (if Z.ltb z 0 then lit "-" else []) ++ rev (digitsRev (S (N.to_nat (N.log2 n))) n).

(** Case mapping restricted to the letters A-Z and a-z, no decomposition,
    and numbers rendered as the decimal digits of their integer part.  It
    serves to run the embedding on Basic Latin text. *)
#[export] Instance BasicLatinEngine : Engine.
Proof.
  refine {|
    toLowerCase := List.map lowerLatin;
    toUpperCase := List.map upperLatin;
    normalizeNFD := fun s => s;
    numberToString := fun n =>
      match n with
      | NaN => lit "NaN"
      | Infinity negative => if negative then lit "-Infinity" else lit "Infinity"
      | Finite q => integerToString (Qfloor q)
      end;
    toLowerCase_latin := fun s _ => eq_refl;
    toUpperCase_latin := fun s _ => eq_refl;
    normalizeNFD_latin := fun s _ => eq_refl
  |}.
  - intros s. induction s as [|c r IH]; simpl; [tauto|].
    intros [H|H]; [|right; auto].
    unfold lowerLatin, isUpperAZ, inRange in H.
    destruct (N.leb 65 c && N.leb c 90)%bool eqn:Hc; [|left; assumption].
    apply andb_true_iff in Hc. destruct Hc as [H1 _].
    apply N.leb_le in H1. unfold space in H. lia.
  - intros s. induction s as [|c r IH]; simpl; [tauto|].
    intros [H|H]; [|right; auto].
    unfold upperLatin, isLowerAZ, inRange in H.
    destruct (N.leb 97 c && N.leb c 122)%bool eqn:Hc; [|left; assumption].
    apply andb_true_iff in Hc. destruct Hc as [H1 _].
    apply N.leb_le in H1. unfold space in H. lia.
Defined.

(** ** Vocabulary of the properties *)

Fixpoint countUnit (c : codeunit) (s : str) : nat :=
  match s with
  | [] => 0
  | d :: r => (if N.eqb d c then 1 else 0) + countUnit c r
  end.

(** [t] ends with [u]. *)
Definition isSuffix (u t : str) : Prop := exists pre : str, t = pre ++ u.

(** The positions that the specification sends back to the end of the text:
    NaN, the infinities, the finite values that are no integer and those
    beyond the length. *)
Definition outsideText (p : number) (len : nat) : Prop :=
  match p with
  | NaN => True
  | Infinity _ => True
  | Finite q => (~ exists z : Z, q == inject_Z z)%Q \/ (inject_Z (Z.of_nat len) < q)%Q
  end.

(** No two adjacent code units are both capitals A-Z. *)
Fixpoint noUpperPair (s : str) : bool :=
  match s with
  | [] => true
  | c :: r =>
      match r with
      | [] => true
      | d :: _ => negb (isUpperAZ c && isUpperAZ d) && noUpperPair r
      end
  end.

Definition startsWithUpper (s : str) : bool :=
  match s with
  | [] => false
  | c :: _ => isUpperAZ c
  end.

(** What [endsWith] computes once the position is the integer [p]: [u] is
    found at index [p - length u], and is not found one index before. *)
Definition endsWithAt (t u : str) (p : nat) : bool :=
  (length u <=? p)
  && isPrefix u (skipn (p - length u) t)
  && negb ((length u <? p) && isPrefix u (skipn (p - length u - 1) t)).

(** No code unit is a capital A-Z. *)
Definition noUpper (s : str) : bool :=
  forallb (fun c => negb (isUpperAZ c)) s.

(** Every underscore is followed by a letter a-z, which in turn is not
    followed by an underscore; no code unit is a capital A-Z. *)
Fixpoint snakeWords (s : str) : bool :=
  match s with
  | [] => true
  | c :: r =>
      if N.eqb c underscore then
        match r with
        | [] => false
        | d :: r' =>
            isLowerAZ d
            && match r' with
               | [] => true
               | e :: _ => negb (N.eqb e underscore)
               end
            && snakeWords r
        end
      else negb (isUpperAZ c) && snakeWords r
  end.

(** A snake_case identifier: it does not start with an underscore, and its
    words are as [snakeWords] says. *)
Definition snakeCase (s : str) : bool :=
  match s with
  | [] => true
  | c :: _ => negb (N.eqb c underscore)
  end && snakeWords s.

(** The text neither starts nor ends with white space. *)
Definition trimmed (s : str) : Prop :=
  match s with [] => True | c :: _ => isWhiteSpace c = false end
  /\ forall (x : str) (c : codeunit), s = x ++ [c] -> isWhiteSpace c = false.

Section Vocabulary.
Context {E : Engine}.

(** The contract as the specification words it: trim, lowercase, split on
    single spaces; then the first word as it is, every later word
    capitalized (the operation [capitalize]), all concatenated. *)
Definition camelSpec (s : str) : str :=
  match split space (toLowerCase (Str.trim s)) with
  | [] => []
  | first :: rest => first ++ concat (List.map Str.capitalize rest)
  end.

(** The first character exists and is lowercase: lowercasing leaves it as it
    is. *)
Definition firstIsLowercase (s : str) : Prop :=
  match s with
  | [] => False
  | c :: _ => toLowerCase [c] = [c]
  end.

(** The operations that call a string method on their argument. *)
Definition stringOnly (sep : option value) : list (value -> completion value) :=
  [Dyn.trim; Dyn.capitalize; Dyn.camel; (fun v => Dyn.slugify v sep);
   Dyn.capitalizeAll; Dyn.snakeToCamel; Dyn.snake; Dyn.words; Dyn.title].

(** The operations that convert their argument with [String(...)] or take
    any value. *)
Definition coercing (u : str) (w : value) (pos : option number)
  : list (value -> completion value) :=
  [Dyn.count; Dyn.lower; Dyn.upper; Dyn.detectObject;
   (fun v => Dyn.startsWith v w pos); (fun v => Dyn.endsWith v (VString u) pos)].

End Vocabulary.

(** * Properties *)

(** Evaluation of a call on Basic Latin text under an arbitrary engine: the
    case mappings and the normalisation are rewritten with the laws of
    [Engine] wherever the evaluation reaches them. *)
Ltac evalLatin :=
  repeat (cbv -[toLowerCase toUpperCase normalizeNFD];
          first [ rewrite toLowerCase_latin by reflexivity
                | rewrite toUpperCase_latin by reflexivity
                | rewrite normalizeNFD_latin by reflexivity ]);
  cbv -[toLowerCase toUpperCase normalizeNFD].

Section Examples.
Context {E : Engine}.

Lemma snake_helloWorld : Str.snake (lit "helloWorld") = lit "hello_world".
Proof. evalLatin. reflexivity. Qed.

Lemma snake_ID : Str.snake (lit "ID") = lit "i_d".
Proof. evalLatin. reflexivity. Qed.

Lemma camel_example : Str.camel (lit " This is a tesT ") = lit "thisIsATest".
Proof. evalLatin. reflexivity. Qed.

Lemma slugifyChain_example :
  Str.slugifyChain (lit " This is a tesT ") (lit "-") = lit "this-is-a-test".
Proof. evalLatin. reflexivity. Qed.

Lemma capitalizeAll_double_space : Str.capitalizeAll (lit "a  b") = lit "A  B".
Proof. evalLatin. reflexivity. Qed.
End Examples.

(** ** slugify *)

Section Slugify.
Context {E : Engine}.

(** C1. [slugify] has no [return]: whatever the text and the delimiter, its
    result is [undefined], also through the untyped entry point, although the
    chain of calls in its body does compute the slug (for the documented
    example, [this-is-a-test]). *)
Theorem slugify_returns_undefined (s : str) (sep : option str) :
  Str.slugify s sep = VUndefined
  /\ Dyn.slugify (VString s) (option_map VString sep) = Normal VUndefined
  /\ Str.slugifyChain (lit " This is a tesT ") (lit "-") = lit "this-is-a-test".
Proof.
  split; [|split].
  - unfold Str.slugify. destruct sep; reflexivity.
  - unfold Dyn.slugify, Str.slugify. destruct sep; reflexivity.
  - apply slugifyChain_example.
Qed.

End Slugify.

(** ** snake and words *)

Section Snake.
Context {E : Engine}.

(** C3 (amended). [snake('helloWorld')] is [hello_world]; [snake('ID')] is
    [i_d]: the first replacement lowers the leading capital, and the second
    one then finds the run [D] and puts an underscore before it. *)
Theorem snake_examples :
  Str.snake (lit "helloWorld") = lit "hello_world"
  /\ Str.snake (lit "ID") = lit "i_d".
Proof. split; [apply snake_helloWorld | apply snake_ID]. Qed.

Lemma replaceAll_removes (pat : codeunit) (replacement s : str) :
  ~ In pat replacement -> ~ In pat (replaceAll pat replacement s).
Proof.
  intros Hrep. unfold replaceAll. rewrite in_flat_map.
  intros [c [_ Hc]].
  destruct (N.eqb c pat) eqn:Heq.
  - exact (Hrep Hc).
  - destruct Hc as [Hc|[]]. subst c. rewrite N.eqb_refl in Heq. discriminate.
Qed.

(** C9. The result of [words] holds no underscore, whatever [snake]
    produced: the final [replaceAll] turns every underscore into a space. *)
Theorem words_no_underscore (s : str) : ~ In underscore (Str.words s).
Proof.
  unfold Str.words. apply replaceAll_removes.
  intros [H|[]]. discriminate H.
Qed.

End Snake.

(** No engine makes [snake('ID')] equal to [id]. *)
Lemma snake_ID_is_not_id : ~ exists E : Engine, @Str.snake E (lit "ID") = lit "id".
Proof.
  intros [E H]. rewrite snake_ID in H. discriminate H.
Qed.

(** ** camel *)

Section Camel.
Context {E : Engine}.

Lemma reduceFrom_later (i : nat) (ws : list str) (acc : str) :
  reduceFrom (fun acc word i => acc ++ (if Nat.eqb i 0 then word else Str.capitalize word))
             (S i) ws acc
  = acc ++ concat (List.map Str.capitalize ws).
Proof.
  revert i acc. induction ws as [|w ws IH]; intros i acc; simpl.
  - now rewrite app_nil_r.
  - rewrite IH. now rewrite app_assoc.
Qed.

Lemma split_not_nil (sep : codeunit) (s : str) : split sep s <> [].
Proof.
  destruct s as [|c r]; simpl; [discriminate|].
  destruct (N.eqb c sep); [discriminate|].
  destruct (split sep r); discriminate.
Qed.

(** C6. [camel] trims, lowercases, splits on single spaces and concatenates
    the first word unchanged with the capitalized later words; the documented
    example yields [thisIsATest]. *)
Theorem camel_meets_spec :
  (forall s : str, Str.camel s = camelSpec s)
  /\ Str.camel (lit " This is a tesT ") = lit "thisIsATest".
Proof.
  split; [|apply camel_example].
  intros s. unfold Str.camel, camelSpec, reduce.
  destruct (split space (toLowerCase (Str.trim s))) as [|w ws]; [reflexivity|].
  simpl. apply reduceFrom_later.
Qed.

End Camel.

(** ** capitalizeAll *)

Section SplitJoin.
Variable sep : codeunit.

Lemma split_without_sep (w : str) : ~ In sep w -> split sep w = [w].
Proof.
  induction w as [|c r IH]; intros Hfree; simpl; [reflexivity|].
  destruct (N.eqb c sep) eqn:Hc.
  - apply N.eqb_eq in Hc. exfalso. apply Hfree. now left.
  - rewrite IH; [reflexivity|]. intros Hin. apply Hfree. now right.
Qed.

Lemma split_app_sep (w rest : str) :
  ~ In sep w -> split sep (w ++ sep :: rest) = w :: split sep rest.
Proof.
  induction w as [|c r IH]; intros Hfree; simpl.
  - now rewrite N.eqb_refl.
  - destruct (N.eqb c sep) eqn:Hc.
    + apply N.eqb_eq in Hc. exfalso. apply Hfree. now left.
    + rewrite IH; [reflexivity|]. intros Hin. apply Hfree. now right.
Qed.

Lemma split_join (ws : list str) :
  ws <> [] -> (forall w, In w ws -> ~ In sep w) -> split sep (join [sep] ws) = ws.
Proof.
  induction ws as [|w ws IH]; intros Hne Hfree; [congruence|].
  destruct ws as [|w2 ws].
  - simpl. apply split_without_sep. apply Hfree. now left.
  - change (join [sep] (w :: w2 :: ws)) with (w ++ sep :: join [sep] (w2 :: ws)).
    rewrite split_app_sep by (apply Hfree; now left).
    f_equal. apply IH; [discriminate|].
    intros w' Hin. apply Hfree. now right.
Qed.

Lemma split_fields_free (s w : str) : In w (split sep s) -> ~ In sep w.
Proof.
  revert w. induction s as [|c r IH]; intros w; simpl.
  - intros [<-|[]] [].
  - destruct (N.eqb c sep) eqn:Hc.
    + intros [<-|Hin]; [intros []|now apply IH].
    + destruct (split sep r) as [|w0 ws] eqn:Hs.
      * intros [<-|[]] [H|[]]. subst c. now rewrite N.eqb_refl in Hc.
      * intros [<-|Hin].
        -- intros [H|H].
           ++ subst c. now rewrite N.eqb_refl in Hc.
           ++ revert H. apply IH. now left.
        -- apply IH. now right.
Qed.

Lemma split_length (s : str) : length (split sep s) = S (countUnit sep s).
Proof.
  induction s as [|c r IH]; simpl; [reflexivity|].
  destruct (N.eqb c sep); simpl.
  - now rewrite IH.
  - destruct (split sep r); simpl in *; [discriminate|assumption].
Qed.

End SplitJoin.

Lemma setAt_middle (A : Type) (pre post : list A) (x y : A) :
  setAt (length pre) y (pre ++ x :: post) = pre ++ y :: post.
Proof. induction pre as [|a pre IH]; simpl; [reflexivity|now rewrite IH]. Qed.

Lemma dropWhile_incl (A : Type) (p : A -> bool) (l : list A) (x : A) :
  In x (dropWhile p l) -> In x l.
Proof.
  induction l as [|a l IH]; simpl; [tauto|].
  destruct (p a); [intros H; right; auto|intros H; exact H].
Qed.

Section CapitalizeAll.
Context {E : Engine}.

Lemma capitalizeLoop_from (post pre : list str) :
  Str.capitalizeLoop (length post) (length pre) (pre ++ post)
  = pre ++ List.map Str.capitalize post.
Proof.
  revert pre. induction post as [|w post IH]; intros pre; simpl; [reflexivity|].
  rewrite nth_middle, setAt_middle.
  replace (S (length pre)) with (length (pre ++ [Str.capitalize w]))
    by (rewrite length_app; simpl; lia).
  replace (pre ++ Str.capitalize w :: post) with ((pre ++ [Str.capitalize w]) ++ post)
    by (now rewrite <- app_assoc).
  rewrite IH. now rewrite <- app_assoc.
Qed.

(** The loop capitalizes every element of the array, in place. *)
Lemma capitalizeLoop_map (stringArr : list str) :
  Str.capitalizeLoop (length stringArr) 0 stringArr = List.map Str.capitalize stringArr.
Proof. exact (capitalizeLoop_from stringArr []). Qed.

Lemma replaceTrailingWhiteSpace_incl (s : str) (c : codeunit) :
  In c (Str.replaceTrailingWhiteSpace s) -> In c s.
Proof.
  induction s as [|d r IH]; [tauto|].
  cbn [Str.replaceTrailingWhiteSpace].
  destruct (forallb isWhiteSpace (d :: r)); [intros []|].
  intros [H|H]; [now left|right; auto].
Qed.

Lemma trim_incl (s : str) (c : codeunit) : In c (Str.trim s) -> In c s.
Proof.
  unfold Str.trim, Str.replaceLeadingWhiteSpace. intros H.
  apply replaceTrailingWhiteSpace_incl in H. now apply dropWhile_incl in H.
Qed.

Lemma capitalize_space_free (w : str) : ~ In space w -> ~ In space (Str.capitalize w).
Proof.
  intros Hfree. unfold Str.capitalize. rewrite in_app_iff.
  intros [H|H].
  - apply toUpperCase_space in H. apply Hfree, trim_incl.
    destruct (Str.trim w); simpl in H; [tauto|]. destruct H as [<-|[]]. now left.
  - apply toLowerCase_space in H. apply Hfree, trim_incl.
    destruct (Str.trim w); simpl in H; [tauto|]. now right.
Qed.

(** C4 (amended). [capitalizeAll] keeps every run of spaces at its length:
    the fields between single spaces of the result are the capitalized fields
    of the input, the empty fields between adjacent spaces included, so the
    result holds exactly as many spaces as the input. *)
Theorem capitalizeAll_keeps_spaces (s : str) :
  split space (Str.capitalizeAll s) = List.map Str.capitalize (split space s)
  /\ countUnit space (Str.capitalizeAll s) = countUnit space s.
Proof.
  assert (Hsplit : split space (Str.capitalizeAll s)
                   = List.map Str.capitalize (split space s)).
  { unfold Str.capitalizeAll. rewrite capitalizeLoop_map.
    apply split_join.
    - pose proof (split_not_nil space s) as Hne.
      destruct (split space s); [congruence|discriminate].
    - intros w Hin. apply in_map_iff in Hin. destruct Hin as [w0 [<- Hin]].
      apply capitalize_space_free. now apply split_fields_free in Hin. }
  split; [exact Hsplit|].
  apply (f_equal (@length str)) in Hsplit.
  rewrite length_map, !split_length in Hsplit. lia.
Qed.

End CapitalizeAll.

(** On ['a  b'] no engine yields ['A B']: the two spaces stay. *)
Lemma capitalizeAll_does_not_collapse :
  ~ exists E : Engine, @Str.capitalizeAll E (lit "a  b") = lit "A B".
Proof.
  intros [E H]. rewrite capitalizeAll_double_space in H. discriminate H.
Qed.

(** ** endsWith and startsWith *)

Lemma strictEq_ofZ (a b : Z) : strictEq (ofZ a) (ofZ b) = Z.eqb a b.
Proof.
  unfold strictEq, ofZ. destruct (Z.eqb_spec a b) as [->|Hne].
  - apply Qeq_bool_iff. reflexivity.
  - destruct (Qeq_bool (inject_Z a) (inject_Z b)) eqn:H; [|reflexivity].
    apply Qeq_bool_iff in H. unfold Qeq in H. simpl in H. lia.
Qed.

Lemma strictEq_subtract (k a b : Z) :
  strictEq (ofZ k) (subtract (ofZ a) (ofZ b)) = Z.eqb k (a - b).
Proof.
  unfold strictEq, subtract, ofZ. destruct (Z.eqb_spec k (a - b)) as [->|Hne].
  - apply Qeq_bool_iff. unfold Qeq, Qminus, Qplus, Qopp. simpl. lia.
  - destruct (Qeq_bool _ _) eqn:H; [|reflexivity].
    apply Qeq_bool_iff in H. unfold Qeq, Qminus, Qplus, Qopp in H. simpl in H. lia.
Qed.

Lemma indexOfAt_range (sub s : str) (i : Z) :
  indexOfAt sub s i = (-1)%Z
  \/ (i <= indexOfAt sub s i <= i + Z.of_nat (length s))%Z.
Proof.
  revert i. induction s as [|c r IH]; intros i; simpl.
  - destruct (isPrefix sub []); [right; lia|now left].
  - destruct (isPrefix sub (c :: r)); [right; lia|].
    destruct (IH (i + 1)%Z) as [H|H]; [now left|right; lia].
Qed.

Lemma indexOf_range (s sub : str) (p : number) :
  indexOf s sub p = (-1)%Z \/ (0 <= indexOf s sub p <= Z.of_nat (length s))%Z.
Proof.
  unfold indexOf.
  assert (Hstart : clampPosition p (length s) <= length s).
  { unfold clampPosition. destruct p as [|[|]|q]; lia. }
  destruct (indexOfAt_range sub (skipn (clampPosition p (length s)) s)
                            (Z.of_nat (clampPosition p (length s)))) as [H|H];
    [now left|right].
  rewrite length_skipn in H. lia.
Qed.

Lemma resetsPosition_negative (z : Z) (len : nat) :
  (z < 0)%Z -> Str.resetsPosition (Some (ofZ z)) len = false.
Proof.
  intros Hz. unfold Str.resetsPosition, truthy, isFinite, floor, greaterThan, ofZ.
  rewrite Qfloor_Z.
  assert (H0 : Qeq_bool (inject_Z z) 0 = false).
  { destruct (Qeq_bool (inject_Z z) 0) eqn:H; [|reflexivity].
    apply Qeq_bool_iff in H. unfold Qeq in H. simpl in H. lia. }
  assert (H1 : strictEq (ofZ z) (ofZ z) = true)
    by (rewrite strictEq_ofZ; apply Z.eqb_refl).
  assert (H2 : Qle_bool (inject_Z z) (inject_Z (Z.of_nat len)) = true).
  { apply Qle_bool_iff. unfold Qle. simpl. lia. }
  unfold ofZ in H1. rewrite H0, H1, H2. reflexivity.
Qed.

Lemma resetsPosition_outside (p : number) (len : nat) :
  outsideText p len -> Str.resetsPosition (Some p) len = true.
Proof.
  unfold outsideText, Str.resetsPosition. destruct p as [| negative |q]; intros H.
  - reflexivity.
  - reflexivity.
  - cbn [truthy isFinite floor greaterThan negb orb].
    destruct H as [Hint|Hbig].
    + assert (Hne : strictEq (ofZ (Qfloor q)) (Finite q) = false).
      { unfold strictEq, ofZ. destruct (Qeq_bool _ q) eqn:Heq; [|reflexivity].
        apply Qeq_bool_iff in Heq. exfalso. apply Hint.
        exists (Qfloor q). now symmetry. }
      rewrite Hne. cbn. now rewrite orb_true_r.
    + assert (Hgt : Qle_bool q (inject_Z (Z.of_nat len)) = false).
      { destruct (Qle_bool q _) eqn:Hle; [|reflexivity].
        apply Qle_bool_iff in Hle. exfalso. exact (Qlt_not_le _ _ Hbig Hle). }
      rewrite Hgt. cbn. now rewrite !orb_true_r.
Qed.

(** C5 (amended). A position that is NaN, infinite, finite but no integer,
    or greater than the length of the text is replaced by the length, so the
    call answers as without a position.  A negative integer is kept as it is,
    and the answer is then [false] for every text and substring. *)
Theorem endsWith_position (t u : str) (p : number) :
  (outsideText p (length t) -> Str.endsWith t u (Some p) = Str.endsWith t u None)
  /\ (forall z : Z, (z < 0)%Z -> Str.endsWith t u (Some (ofZ z)) = false).
Proof.
  split.
  - intros H. unfold Str.endsWith. now rewrite (resetsPosition_outside _ _ H).
  - intros z Hz. unfold Str.endsWith.
    rewrite (resetsPosition_negative _ Hz).
    set (pos := subtract (ofZ z) (ofNat (length u))).
    destruct (indexOf_range t u (subtract pos (ofZ 1))) as [H|H].
    + rewrite H. reflexivity.
    + unfold pos, ofNat in *. rewrite strictEq_subtract.
      replace (Z.eqb _ (z - Z.of_nat (length u))) with false;
        [apply andb_false_r|].
      symmetry. apply Z.eqb_neq. lia.
Qed.

(** With position -1 the text ['test'] is found not to end with ['st'],
    which it does without a position. *)
Lemma endsWith_negative_differs :
  Str.endsWith (lit "test") (lit "st") (Some (ofZ (-1))) = false
  /\ Str.endsWith (lit "test") (lit "st") None = true.
Proof. split; reflexivity. Qed.

Lemma endsWith_position_witness :
  outsideText (ofZ 10) (length (lit "test"))
  /\ Str.endsWith (lit "test") (lit "st") (Some (ofZ 10)) = Str.endsWith (lit "test") (lit "st") None
  /\ Str.endsWith (lit "test") (lit "st") (Some (ofZ (-2))) = false.
Proof.
  assert (H : outsideText (ofZ 10) (length (lit "test"))) by (right; reflexivity).
  split; [exact H|]. split.
  - exact (proj1 (endsWith_position (lit "test") (lit "st") (ofZ 10)) H).
  - apply (proj2 (endsWith_position (lit "test") (lit "st") (ofZ 10)) (-2)%Z). lia.
Defined.

(** C2, at the failing input: ['aaa'] ends with ['a'], yet the search starts
    one index before the expected one, finds the occurrence at index 1 and
    the answer is [false].  The two documented examples hold. *)
Theorem endsWith_misses_repeated_suffix :
  isSuffix (lit "a") (lit "aaa")
  /\ Str.endsWith (lit "aaa") (lit "a") None = false
  /\ Str.endsWith (lit "test") (lit "st") None = true
  /\ Str.endsWith (lit "test") (lit "te") None = false.
Proof.
  split; [exists (lit "aa"); reflexivity|].
  repeat split; reflexivity.
Qed.

(** C10, at the failing input: ['x'] does not occur in ['test'], the search
    answers -1, and -1 is the position that was passed. *)
Theorem startsWith_minus_one_absent :
  indexOf (lit "test") (lit "x") (ofZ (-1)) = (-1)%Z
  /\ Str.startsWith (lit "test") (lit "x") (Some (ofZ (-1))) = true.
Proof. split; reflexivity. Qed.

(** ** snakeToCamel after snake *)

Section RoundTrip.
Context {E : Engine}.
Local Open Scope N_scope.

Lemma isUpperAZ_bounds (c : codeunit) : isUpperAZ c = true -> (65 <= c <= 90)%N.
Proof.
  unfold isUpperAZ, inRange. intros H. apply andb_true_iff in H.
  destruct H as [H1 H2]. apply N.leb_le in H1, H2. lia.
Qed.

Lemma toLowerCase_upper (c : codeunit) :
  isUpperAZ c = true -> toLowerCase [c] = [(c + 32)%N].
Proof.
  intros H. pose proof (isUpperAZ_bounds c H) as Hb.
  rewrite toLowerCase_latin.
  - simpl. unfold lowerLatin. now rewrite H.
  - simpl. unfold isBasicLatin. rewrite andb_true_r. apply N.ltb_lt. lia.
Qed.

Lemma toUpperCase_lowered (c : codeunit) :
  isUpperAZ c = true -> toUpperCase [(c + 32)%N] = [c].
Proof.
  intros H. pose proof (isUpperAZ_bounds c H) as Hb.
  rewrite toUpperCase_latin.
  - simpl. unfold upperLatin, isLowerAZ, inRange.
    replace (N.leb 97 (c + 32)) with true by (symmetry; apply N.leb_le; lia).
    replace (N.leb (c + 32) 122) with true by (symmetry; apply N.leb_le; lia).
    simpl. f_equal. lia.
  - simpl. unfold isBasicLatin. rewrite andb_true_r. apply N.ltb_lt. lia.
Qed.

Lemma lowered_is_plain (c : codeunit) :
  isUpperAZ c = true ->
  N.eqb (c + 32) underscore = false /\ isLineTerminator (c + 32) = false.
Proof.
  intros H. pose proof (isUpperAZ_bounds c H) as Hb. unfold underscore, isLineTerminator.
  assert (Hne : forall k : N, (k < 97)%N \/ (122 < k)%N -> N.eqb (c + 32) k = false)
    by (intros k Hk; apply N.eqb_neq; lia).
  rewrite !Hne by lia. split; reflexivity.
Qed.

(** One match of the second replacement of [snake], read back by
    [snakeToCamel]. *)
Lemma snakeToCamelScan_run (c : codeunit) (rest : str) :
  isUpperAZ c = true ->
  Str.snakeToCamelScan false (Str.replaceRun [c] ++ rest)
  = c :: Str.snakeToCamelScan false rest.
Proof.
  intros H. destruct (lowered_is_plain c H) as [Hu Hl].
  unfold Str.replaceRun. rewrite (toLowerCase_upper c H).
  cbn [app Str.snakeToCamelScan].
  replace (N.eqb underscore underscore) with true by reflexivity.
  rewrite Hu, Hl, (toUpperCase_lowered c H). reflexivity.
Qed.

Lemma snakeToCamel_replaceUpperRuns (s : str) :
  ~ In underscore s -> noUpperPair s = true ->
  Str.snakeToCamelScan false (Str.replaceUpperRuns [] s) = s
  /\ forall c, isUpperAZ c = true -> startsWithUpper s = false ->
       Str.snakeToCamelScan false (Str.replaceUpperRuns [c] s) = c :: s.
Proof.
  induction s as [|d r IH]; intros Hunder Hpair.
  - split; [reflexivity|]. intros c Hc _.
    cbn [Str.replaceUpperRuns].
    rewrite <- (app_nil_r (Str.replaceRun [c])).
    now rewrite snakeToCamelScan_run.
  - assert (Hd : N.eqb d underscore = false).
    { apply N.eqb_neq. intros ->. apply Hunder. now left. }
    assert (Hr : ~ In underscore r) by (intros Hin; apply Hunder; now right).
    assert (Hpr : noUpperPair r = true).
    { simpl in Hpair. destruct r; [reflexivity|].
      apply andb_true_iff in Hpair. exact (proj2 Hpair). }
    destruct (IH Hr Hpr) as [IH0 IH1].
    assert (Hplain : isUpperAZ d = false ->
                     Str.snakeToCamelScan false (d :: Str.replaceUpperRuns [] r) = d :: r).
    { intros _. cbn [Str.snakeToCamelScan]. rewrite Hd. now rewrite IH0. }
    split.
    + cbn [Str.replaceUpperRuns app]. destruct (isUpperAZ d) eqn:Hup.
      * apply IH1; [assumption|].
        simpl in Hpair. destruct r as [|e r']; [reflexivity|].
        apply andb_true_iff in Hpair. destruct Hpair as [Hpair _].
        simpl. rewrite Hup in Hpair. simpl in Hpair.
        now destruct (isUpperAZ e).
      * cbn [Str.replaceRun app]. now apply Hplain.
    + intros c Hc Hstart. simpl in Hstart.
      cbn [Str.replaceUpperRuns]. rewrite Hstart.
      rewrite (snakeToCamelScan_run c _ Hc). f_equal. now apply Hplain.
Qed.

(** The round trip under the weakest conditions on the capitals A-Z. *)
Lemma snakeToCamel_snake_general (s : str) :
  startsWithUpper s = false -> ~ In underscore s -> noUpperPair s = true ->
  Str.snakeToCamel (Str.snake s) = s.
Proof.
  intros Hstart Hunder Hpair. unfold Str.snakeToCamel, Str.snake.
  replace (Str.lowerFirstUpper s) with s.
  - exact (proj1 (snakeToCamel_replaceUpperRuns s Hunder Hpair)).
  - destruct s as [|c r]; [reflexivity|]. simpl in *. now rewrite Hstart.
Qed.

Lemma firstIsLowercase_not_upper (s : str) :
  firstIsLowercase s -> startsWithUpper s = false.
Proof.
  destruct s as [|c r]; simpl; [reflexivity|]. intros H.
  destruct (isUpperAZ c) eqn:Hc; [|reflexivity].
  rewrite (toLowerCase_upper c Hc) in H. injection H as H. lia.
Qed.

(** C7. For a simple camelCase identifier (the first character is lowercase;
    no underscore, no space, no two adjacent capitals),
    [snakeToCamel(snake(s))] is [s]. *)
Theorem snakeToCamel_snake (s : str) :
  firstIsLowercase s -> ~ In underscore s -> ~ In space s -> noUpperPair s = true ->
  Str.snakeToCamel (Str.snake s) = s.
Proof.
  intros Hfirst Hunder _ Hpair.
  apply snakeToCamel_snake_general; [|assumption|assumption].
  now apply firstIsLowercase_not_upper.
Qed.

End RoundTrip.

Lemma snakeToCamel_snake_witness :
  @Str.snakeToCamel BasicLatinEngine (@Str.snake BasicLatinEngine (lit "helloWorld"))
  = lit "helloWorld".
Proof.
  apply (@snakeToCamel_snake BasicLatinEngine (lit "helloWorld")).
  - reflexivity.
  - vm_compute. intuition discriminate.
  - vm_compute. intuition discriminate.
  - reflexivity.
Defined.

(** ** Normal completion *)

Section Totality.
Context {E : Engine}.

(** C8 (amended). No operation raises an error on text: every operation
    completes normally on a string argument (with a string substring and any
    optional numeric position), and the operations that convert their
    argument complete on every value. *)
Theorem operations_complete_on_text
        (s u : str) (sep : option value) (w : value) (pos : option number) :
  forallb (fun op => completes (op (VString s))) (stringOnly sep ++ coercing u w pos) = true
  /\ forall v : value, forallb (fun op => completes (op v)) (coercing u w pos) = true.
Proof. split; [|intros v]; reflexivity. Qed.


End Totality.


(** [String(123)] is ['123'], yet [trim(123)] throws: a number has no method
    [replace]. *)
Lemma trim_number_throws :
  @Dyn.toString BasicLatinEngine (VNumber (ofZ 123)) = lit "123"
  /\ Dyn.trim (VNumber (ofZ 123)) = Throw TypeError.
Proof. split; reflexivity. Qed.

(** ** Further properties of trim, endsWith and startsWith *)

Lemma replaceTrailingWhiteSpace_nil (s : str) :
  Str.replaceTrailingWhiteSpace s = [] -> forallb isWhiteSpace s = true.
Proof.
  destruct s as [|c r]; [reflexivity|].
  cbn [Str.replaceTrailingWhiteSpace].
  destruct (forallb isWhiteSpace (c :: r)); [reflexivity|discriminate].
Qed.

Lemma replaceTrailingWhiteSpace_blank (s : str) :
  forallb isWhiteSpace (Str.replaceTrailingWhiteSpace s) = true ->
  Str.replaceTrailingWhiteSpace s = [].
Proof.
  induction s as [|c r IH]; [reflexivity|].
  cbn [Str.replaceTrailingWhiteSpace].
  destruct (forallb isWhiteSpace (c :: r)) eqn:Hall; [reflexivity|].
  intros H. cbn [forallb] in H, Hall. apply andb_true_iff in H. destruct H as [Hc Hr].
  apply IH, replaceTrailingWhiteSpace_nil in Hr.
  rewrite Hc, Hr in Hall. discriminate Hall.
Qed.

Lemma replaceTrailingWhiteSpace_idempotent (s : str) :
  Str.replaceTrailingWhiteSpace (Str.replaceTrailingWhiteSpace s)
  = Str.replaceTrailingWhiteSpace s.
Proof.
  induction s as [|c r IH]; [reflexivity|].
  cbn [Str.replaceTrailingWhiteSpace].
  destruct (forallb isWhiteSpace (c :: r)) eqn:Hall; [reflexivity|].
  cbn [Str.replaceTrailingWhiteSpace].
  destruct (forallb isWhiteSpace (c :: Str.replaceTrailingWhiteSpace r)) eqn:Hall'.
  - exfalso. cbn [forallb] in Hall, Hall'.
    apply andb_true_iff in Hall'. destruct Hall' as [Hc Hr].
    apply replaceTrailingWhiteSpace_blank, replaceTrailingWhiteSpace_nil in Hr.
    rewrite Hc, Hr in Hall. discriminate Hall.
  - now rewrite IH.
Qed.

Lemma dropWhile_head (s : str) :
  match dropWhile isWhiteSpace s with
  | [] => True
  | c :: _ => isWhiteSpace c = false
  end.
Proof.
  induction s as [|c r IH]; simpl; [exact I|].
  destruct (isWhiteSpace c) eqn:Hc; [exact IH|exact Hc].
Qed.

(** [trim(trim(s)) == trim(s)]. *)
Theorem trim_idempotent (s : str) : Str.trim (Str.trim s) = Str.trim s.
Proof.
  unfold Str.trim, Str.replaceLeadingWhiteSpace.
  pose proof (dropWhile_head s) as Hhead.
  destruct (dropWhile isWhiteSpace s) as [|c r]; [reflexivity|].
  assert (Hall : forallb isWhiteSpace (c :: r) = false) by (simpl; now rewrite Hhead).
  cbn [Str.replaceTrailingWhiteSpace]. rewrite Hall.
  cbn [dropWhile]. rewrite Hhead.
  change (c :: Str.replaceTrailingWhiteSpace r)
    with (if false then [] else c :: Str.replaceTrailingWhiteSpace r).
  rewrite <- Hall.
  exact (replaceTrailingWhiteSpace_idempotent (c :: r)).
Qed.

Lemma isPrefix_same_length (u w : str) :
  isPrefix u w = true -> length w = length u -> w = u.
Proof.
  revert w. induction u as [|x u IH]; intros [|y w]; simpl; try discriminate; auto.
  intros H Hlen. apply andb_true_iff in H. destruct H as [Hxy H].
  apply N.eqb_eq in Hxy. subst y. f_equal. apply IH; [assumption|lia].
Qed.

Lemma indexOfAt_found (sub s : str) (i k : Z) :
  indexOfAt sub s i = k -> k <> (-1)%Z -> (0 <= i)%Z ->
  (i <= k <= i + Z.of_nat (length s))%Z
  /\ isPrefix sub (skipn (Z.to_nat (k - i)) s) = true.
Proof.
  revert i. induction s as [|c r IH]; intros i Hk Hne Hi; simpl in Hk.
  - destruct (isPrefix sub []) eqn:Hp; [|congruence].
    subst k. rewrite Z.sub_diag. simpl. split; [lia|assumption].
  - destruct (isPrefix sub (c :: r)) eqn:Hp.
    + subst k. rewrite Z.sub_diag. cbn [Z.to_nat skipn]. split; [simpl; lia|assumption].
    + destruct (IH (i + 1)%Z Hk Hne ltac:(lia)) as [Hrange Hpre].
      split; [simpl length; lia|].
      replace (Z.to_nat (k - i)) with (S (Z.to_nat (k - (i + 1)))) by lia.
      exact Hpre.
Qed.

(** When [endsWith] answers [true] without a position, the text does end
    with the substring. *)
Theorem endsWith_sound (t u : str) :
  Str.endsWith t u None = true -> isSuffix u t.
Proof.
  unfold Str.endsWith. intros H. apply andb_true_iff in H. destruct H as [Hfound Heq].
  set (pos := subtract (ofNat (length t)) (ofNat (length u))) in *.
  remember (indexOf t u (subtract pos (ofZ 1))) as k eqn:Hk.
  apply negb_true_iff, Z.eqb_neq in Hfound.
  unfold pos, ofNat in Heq. rewrite strictEq_subtract in Heq. apply Z.eqb_eq in Heq.
  symmetry in Hk. unfold indexOf in Hk.
  set (start := clampPosition (subtract pos (ofZ 1)) (length t)) in *.
  assert (Hstart : start <= length t).
  { unfold start, clampPosition. destruct (subtract pos (ofZ 1)) as [|[|]|q]; lia. }
  destruct (indexOfAt_found _ _ Hk Hfound ltac:(lia)) as [Hrange Hpre].
  rewrite length_skipn in Hrange. rewrite skipn_skipn in Hpre.
  replace (Z.to_nat (k - Z.of_nat start) + start) with (Z.to_nat k) in Hpre by lia.
  exists (firstn (Z.to_nat k) t).
  rewrite <- (firstn_skipn (Z.to_nat k) t) at 1. f_equal.
  apply isPrefix_same_length; [assumption|]. rewrite length_skipn. lia.
Qed.

(** With a negative integer position, [startsWith] answers [true] exactly
    when the position is -1 and the search fails. *)
Theorem startsWith_negative (t u : str) (z : Z) :
  (z < 0)%Z ->
  Str.startsWith t u (Some (ofZ z))
  = (Z.eqb z (-1) && Z.eqb (indexOf t u (ofZ z)) (-1))%bool.
Proof.
  intros Hz. unfold Str.startsWith, Str.orZero.
  assert (Htruthy : truthy (ofZ z) = true).
  { unfold truthy, ofZ. destruct (Qeq_bool (inject_Z z) 0) eqn:H; [|reflexivity].
    apply Qeq_bool_iff in H. unfold Qeq in H. simpl in H. lia. }
  rewrite Htruthy, strictEq_ofZ.
  destruct (indexOf_range t u (ofZ z)) as [H|H].
  - rewrite H. simpl Z.eqb at 3. rewrite andb_true_r. apply Z.eqb_sym.
  - replace (Z.eqb (indexOf t u (ofZ z)) z) with false by (symmetry; apply Z.eqb_neq; lia).
    replace (Z.eqb (indexOf t u (ofZ z)) (-1)) with false by (symmetry; apply Z.eqb_neq; lia).
    now rewrite andb_false_r.
Qed.

Lemma startsWith_negative_witness :
  Str.startsWith (lit "test") (lit "te") (Some (ofZ (-3))) = false.
Proof.
  rewrite (@startsWith_negative (lit "test") (lit "te") (-3)%Z) by reflexivity.
  reflexivity.
Defined.

Lemma endsWith_sound_witness : isSuffix (lit "st") (lit "test").
Proof.
  apply (@endsWith_sound (lit "test") (lit "st")). reflexivity.
Defined.

(** ** trim: what is removed and what is left *)

Lemma dropWhile_decompose (A : Type) (p : A -> bool) (l : list A) :
  exists pre : list A, l = pre ++ dropWhile p l /\ forallb p pre = true.
Proof.
  induction l as [|a l [pre [Heq Hpre]]]; simpl.
  - exists []. split; reflexivity.
  - destruct (p a) eqn:Ha.
    + exists (a :: pre). simpl. rewrite Ha, Hpre. split; [now f_equal|reflexivity].
    + exists []. split; reflexivity.
Qed.

Lemma replaceTrailingWhiteSpace_decompose (s : str) :
  exists post : str,
    s = Str.replaceTrailingWhiteSpace s ++ post /\ forallb isWhiteSpace post = true.
Proof.
  induction s as [|c r [post [Heq Hpost]]].
  - exists []. split; reflexivity.
  - cbn [Str.replaceTrailingWhiteSpace].
    destruct (forallb isWhiteSpace (c :: r)) eqn:Hall.
    + exists (c :: r). split; [reflexivity|assumption].
    + exists post. split; [simpl; now f_equal|assumption].
Qed.

Lemma replaceTrailingWhiteSpace_last (s x : str) (c : codeunit) :
  Str.replaceTrailingWhiteSpace s = x ++ [c] -> isWhiteSpace c = false.
Proof.
  revert x. induction s as [|d r IH]; intros x H.
  - destruct x; discriminate H.
  - cbn [Str.replaceTrailingWhiteSpace] in H.
    destruct (forallb isWhiteSpace (d :: r)) eqn:Hall; [destruct x; discriminate H|].
    destruct x as [|d' x]; simpl in H.
    + injection H as Hd Hr. subst d.
      apply replaceTrailingWhiteSpace_nil in Hr.
      cbn [forallb] in Hall. rewrite Hr, andb_true_r in Hall. exact Hall.
    + injection H as _ Hr. exact (IH x Hr).
Qed.

Lemma trim_trimmed (s : str) : trimmed (Str.trim s).
Proof.
  unfold trimmed, Str.trim, Str.replaceLeadingWhiteSpace. split.
  - pose proof (dropWhile_head s) as Hhead.
    destruct (dropWhile isWhiteSpace s) as [|c r]; [exact I|].
    cbn [Str.replaceTrailingWhiteSpace].
    replace (forallb isWhiteSpace (c :: r)) with false
      by (simpl; now rewrite Hhead).
    exact Hhead.
  - intros x c. apply replaceTrailingWhiteSpace_last.
Qed.

Lemma trim_decompose (s : str) :
  exists pre post : str,
    s = pre ++ Str.trim s ++ post
    /\ forallb isWhiteSpace pre = true /\ forallb isWhiteSpace post = true.
Proof.
  unfold Str.trim, Str.replaceLeadingWhiteSpace.
  destruct (dropWhile_decompose isWhiteSpace s) as [pre [Hs Hpre]].
  destruct (replaceTrailingWhiteSpace_decompose (dropWhile isWhiteSpace s))
    as [post [Hd Hpost]].
  exists pre, post. split; [|split; assumption].
  rewrite <- Hd. exact Hs.
Qed.

(** [trim] removes a prefix and a suffix made of white space only, and what
    it returns neither starts nor ends with white space. *)
Theorem trim_characterised (s : str) :
  (exists pre post : str,
      s = pre ++ Str.trim s ++ post
      /\ forallb isWhiteSpace pre = true /\ forallb isWhiteSpace post = true)
  /\ trimmed (Str.trim s).
Proof. split; [apply trim_decompose|apply trim_trimmed]. Qed.

(** [trim] never lengthens a text, and keeps the count of a text only when
    it keeps the text. *)
Theorem count_trim (s : str) :
  Str.count (Str.trim s) <= Str.count s
  /\ (Str.count (Str.trim s) = Str.count s -> Str.trim s = s).
Proof.
  unfold Str.count. destruct (trim_decompose s) as [pre [post [Hs _]]].
  assert (Hlen : length s = length pre + (length (Str.trim s) + length post)).
  { rewrite Hs at 1. now rewrite !length_app. }
  split; [lia|]. intros Heq.
  assert (Hpre : pre = []) by (apply length_zero_iff_nil; lia).
  assert (Hpost : post = []) by (apply length_zero_iff_nil; lia).
  subst pre post. simpl in Hs. rewrite app_nil_r in Hs. now symmetry.
Qed.

Lemma count_trim_witness : Str.trim (lit "a b") = lit "a b".
Proof.
  apply (proj2 (count_trim (lit "a b"))). reflexivity.
Defined.

(** ** startsWith and endsWith at an integer position *)

Lemma clampPosition_integer (q : Q) (z : Z) (len : nat) :
  (q == inject_Z z)%Q -> clampPosition (Finite q) len = Nat.min (Z.to_nat z) len.
Proof.
  intros Hq. unfold clampPosition.
  assert (Hfloor : Qfloor q = z) by (rewrite Hq; apply Qfloor_Z).
  assert (Hceil : Qceiling q = z) by (rewrite Hq; apply Qceiling_Z).
  rewrite Hfloor, Hceil. now destruct (Qle_bool 0 q).
Qed.

Lemma truthy_ofZ (z : Z) : truthy (ofZ z) = negb (Z.eqb z 0).
Proof.
  unfold truthy, ofZ. f_equal. destruct (Z.eqb_spec z 0) as [->|Hne].
  - reflexivity.
  - destruct (Qeq_bool (inject_Z z) 0) eqn:H; [|reflexivity].
    apply Qeq_bool_iff in H. unfold Qeq in H. simpl in H. lia.
Qed.

Lemma indexOfAt_at_start (sub s : str) (i : Z) :
  (0 <= i)%Z -> Z.eqb (indexOfAt sub s i) i = isPrefix sub s.
Proof.
  intros Hi. destruct s as [|c r]; simpl.
  - destruct (isPrefix sub []); [apply Z.eqb_refl|apply Z.eqb_neq; lia].
  - destruct (isPrefix sub (c :: r)); [apply Z.eqb_refl|].
    apply Z.eqb_neq. destruct (indexOfAt_range sub r (i + 1)) as [H|H]; lia.
Qed.

(** Without a position [startsWith] says whether [u] is a prefix of [t];
    with a position [p] that is a natural number it says whether [p] lies
    inside the text and [u] is a prefix of what starts at index [p]. *)
Theorem startsWith_exact (t u : str) :
  Str.startsWith t u None = isPrefix u t
  /\ forall p : nat,
       Str.startsWith t u (Some (ofNat p))
       = ((p <=? length t) && isPrefix u (skipn p t))%bool.
Proof.
  assert (Hat : forall p : nat,
             strictEq (ofZ (indexOf t u (ofNat p))) (ofNat p)
             = ((p <=? length t) && isPrefix u (skipn p t))%bool).
  { intros p. unfold ofNat at 2. rewrite strictEq_ofZ.
    unfold indexOf, ofNat, ofZ.
    rewrite (clampPosition_integer (z := Z.of_nat p)) by reflexivity.
    rewrite Nat2Z.id.
    destruct (Nat.leb_spec p (length t)) as [Hle|Hgt].
    - rewrite Nat.min_l by assumption. apply indexOfAt_at_start. lia.
    - rewrite Nat.min_r by lia. rewrite skipn_all. simpl.
      destruct (isPrefix u []); apply Z.eqb_neq; lia. }
  split.
  - exact (Hat 0).
  - intros p. unfold Str.startsWith.
    replace (Str.orZero (Some (ofNat p))) with (ofNat p); [apply Hat|].
    unfold Str.orZero, ofNat. rewrite truthy_ofZ.
    destruct p; [reflexivity|]. now replace (Z.eqb (Z.of_nat (S p)) 0) with false
      by (symmetry; apply Z.eqb_neq; lia).
Qed.

Lemma resetsPosition_inside (p len : nat) :
  1 <= p <= len -> Str.resetsPosition (Some (ofNat p)) len = false.
Proof.
  intros Hp. unfold Str.resetsPosition.
  assert (H1 : truthy (ofNat p) = true).
  { unfold ofNat. rewrite truthy_ofZ. apply negb_true_iff, Z.eqb_neq. lia. }
  assert (H2 : strictEq (floor (ofNat p)) (ofNat p) = true).
  { unfold floor, ofNat, ofZ. rewrite Qfloor_Z. apply Qeq_bool_iff. reflexivity. }
  assert (H3 : greaterThan (ofNat p) (Z.of_nat len) = false).
  { unfold greaterThan, ofNat, ofZ. apply negb_false_iff, Qle_bool_iff.
    unfold Qle. simpl. lia. }
  rewrite H1, H2, H3. reflexivity.
Qed.

(** The answer of [endsWith] once the position is settled on [p]. *)
Lemma endsWith_settled (t u : str) (p : nat) :
  p <= length t ->
  (let pos := subtract (ofNat p) (ofNat (length u)) in
   let index := indexOf t u (subtract pos (ofZ 1)) in
   negb (Z.eqb index (-1)) && strictEq (ofZ index) pos)%bool
  = endsWithAt t u p.
Proof.
  intros Hp. cbv zeta. unfold ofNat. rewrite strictEq_subtract.
  remember (indexOf t u _) as index eqn:Hindex.
  assert (Hrange : index = (-1)%Z \/ (0 <= index <= Z.of_nat (length t))%Z)
    by (rewrite Hindex; apply indexOf_range).
  unfold indexOf, subtract, ofZ in Hindex.
  rewrite (clampPosition_integer
             (z := (Z.of_nat p - Z.of_nat (length u) - 1)%Z)) in Hindex
    by (unfold Qeq, Qminus, Qplus, Qopp; simpl; lia).
  unfold endsWithAt.
  destruct (Nat.leb_spec (length u) p) as [Hle|Hgt].
  - destruct (Nat.ltb_spec (length u) p) as [Hlt|Hge].
    + (* the expected index is at least 1: the search starts one before *)
      replace (Nat.min _ (length t)) with (p - length u - 1) in Hindex by lia.
      replace (Z.of_nat (p - length u - 1))
        with (Z.of_nat p - Z.of_nat (length u) - 1)%Z in Hindex by lia.
      assert (Hskip : skipn (p - length u) t
                      = skipn 1 (skipn (p - length u - 1) t)).
      { rewrite skipn_skipn. f_equal. lia. }
      destruct (skipn (p - length u - 1) t) as [|c rest] eqn:Hrest.
      { apply (f_equal (@length N)) in Hrest. rewrite length_skipn in Hrest.
        simpl in Hrest. lia. }
      simpl in Hskip. rewrite Hskip. simpl in Hindex.
      destruct (isPrefix u (c :: rest)).
      * rewrite Hindex. simpl.
        replace (Z.eqb _ (Z.of_nat p - Z.of_nat (length u))) with false
          by (symmetry; apply Z.eqb_neq; lia).
        now rewrite !andb_false_r.
      * replace (Z.of_nat p - Z.of_nat (length u) - 1 + 1)%Z
          with (Z.of_nat p - Z.of_nat (length u))%Z in Hindex by lia.
        pose proof (indexOfAt_at_start u rest
                      (i := (Z.of_nat p - Z.of_nat (length u))%Z) ltac:(lia)) as Hat.
        rewrite <- Hindex in Hat. rewrite Hat. simpl. rewrite andb_true_r.
        destruct (isPrefix u rest) eqn:Hpre; [|apply andb_false_r].
        apply Z.eqb_eq in Hat. rewrite Hat.
        replace (Z.eqb _ (-1)) with false by (symmetry; apply Z.eqb_neq; lia).
        reflexivity.
    + (* the expected index is 0: the search starts at 0 *)
      assert (p = length u) by lia. subst p.
      replace (Nat.min _ (length t)) with 0 in Hindex by lia.
      rewrite Nat.sub_diag. simpl skipn. simpl skipn in Hindex. simpl Z.of_nat in Hindex.
      replace (Z.of_nat (length u) - Z.of_nat (length u))%Z with 0%Z by lia.
      pose proof (indexOfAt_at_start u t (i := 0%Z) ltac:(lia)) as Hat.
      rewrite <- Hindex in Hat. rewrite Hat. simpl. rewrite andb_true_r.
      destruct (isPrefix u t) eqn:Hpre; [|apply andb_false_r].
      apply Z.eqb_eq in Hat. rewrite Hat. reflexivity.
  - (* the substring is longer than the position: the expected index is negative *)
    simpl. destruct Hrange as [H|H].
    + rewrite H. reflexivity.
    + replace (Z.eqb index (Z.of_nat p - Z.of_nat (length u))) with false
        by (symmetry; apply Z.eqb_neq; lia).
      apply andb_false_r.
Qed.

(** [endsWith] answers [true] exactly when [u] occurs at index
    [p - length u] and does not also occur one index before, where [p] is the
    length of the text when no position is given, and the position when it
    is an integer between 1 and the length. *)
Theorem endsWith_exact (t u : str) :
  Str.endsWith t u None = endsWithAt t u (length t)
  /\ forall p : nat, 1 <= p <= length t ->
       Str.endsWith t u (Some (ofNat p)) = endsWithAt t u p.
Proof.
  split.
  - apply (endsWith_settled t u (p := length t)). lia.
  - intros p Hp. unfold Str.endsWith. rewrite (resetsPosition_inside Hp).
    apply (endsWith_settled t u (p := p)). lia.
Qed.

Lemma endsWith_exact_witness :
  Str.endsWith (lit "banana") (lit "an") (Some (ofNat 5)) = true
  /\ Str.endsWith (lit "aaa") (lit "a") (Some (ofNat 2)) = false.
Proof.
  split.
  - rewrite (proj2 (endsWith_exact (lit "banana") (lit "an")) 5) by (simpl; lia).
    reflexivity.
  - rewrite (proj2 (endsWith_exact (lit "aaa") (lit "a")) 2) by (simpl; lia).
    reflexivity.
Defined.

(** ** snake and snakeToCamel: what the results are made of *)

Section SnakeCase.
Context {E : Engine}.
Local Open Scope N_scope.

Lemma upper_is_latin (run : str) :
  forallb isUpperAZ run = true -> forallb isBasicLatin run = true.
Proof.
  induction run as [|c r IH]; simpl; [reflexivity|]. intros H.
  apply andb_true_iff in H. destruct H as [Hc Hr].
  rewrite (IH Hr), andb_true_r. pose proof (isUpperAZ_bounds c Hc).
  apply N.ltb_lt. lia.
Qed.

Lemma lowerLatin_not_upper (c : codeunit) : isUpperAZ (lowerLatin c) = false.
Proof.
  unfold lowerLatin. destruct (isUpperAZ c) eqn:Hc; [|exact Hc].
  pose proof (isUpperAZ_bounds c Hc). unfold isUpperAZ, inRange.
  replace (N.leb (c + 32) 90) with false by (symmetry; apply N.leb_gt; lia).
  apply andb_false_r.
Qed.

Lemma replaceRun_noUpper (run : str) :
  forallb isUpperAZ run = true -> noUpper (Str.replaceRun run) = true.
Proof.
  intros H. destruct run as [|c r]; [reflexivity|].
  unfold Str.replaceRun. rewrite toLowerCase_latin by (now apply upper_is_latin).
  unfold noUpper. cbn [forallb]. apply andb_true_iff. split; [reflexivity|].
  apply forallb_forall. intros x Hx. apply in_map_iff in Hx.
  destruct Hx as [y [<- _]]. now rewrite lowerLatin_not_upper.
Qed.

Lemma replaceUpperRuns_noUpper (s run : str) :
  forallb isUpperAZ run = true -> noUpper (Str.replaceUpperRuns run s) = true.
Proof.
  revert run. induction s as [|c r IH]; intros run Hrun; cbn [Str.replaceUpperRuns].
  - now apply replaceRun_noUpper.
  - destruct (isUpperAZ c) eqn:Hc.
    + apply IH. rewrite forallb_app, Hrun. simpl. now rewrite Hc.
    + unfold noUpper. rewrite forallb_app. cbn [forallb]. rewrite Hc.
      apply andb_true_iff. split; [now apply replaceRun_noUpper|].
      simpl. now apply IH.
Qed.

Lemma replaceUpperRuns_fixed (s : str) :
  noUpper s = true -> Str.replaceUpperRuns [] s = s.
Proof.
  induction s as [|c r IH]; [reflexivity|]. unfold noUpper. cbn [forallb].
  intros H. apply andb_true_iff in H. destruct H as [Hc Hr].
  apply negb_true_iff in Hc. cbn [Str.replaceUpperRuns]. rewrite Hc.
  simpl. f_equal. now apply IH.
Qed.

Lemma snake_fixed (s : str) : noUpper s = true -> Str.snake s = s.
Proof.
  intros H. unfold Str.snake.
  replace (Str.lowerFirstUpper s) with s; [now apply replaceUpperRuns_fixed|].
  destruct s as [|c r]; [reflexivity|]. unfold noUpper in H. cbn [forallb] in H.
  apply andb_true_iff in H. destruct H as [Hc _]. apply negb_true_iff in Hc.
  simpl. now rewrite Hc.
Qed.

(** The result of [snake] holds no capital A-Z, so that [snake] leaves its
    own results unchanged. *)
Theorem snake_no_capitals (s : str) :
  noUpper (Str.snake s) = true /\ Str.snake (Str.snake s) = Str.snake s.
Proof.
  assert (H : noUpper (Str.snake s) = true)
    by (unfold Str.snake; now apply replaceUpperRuns_noUpper).
  split; [exact H|now apply snake_fixed].
Qed.

Lemma snakeToCamelScan_fixed (s : str) :
  ~ In underscore s -> Str.snakeToCamelScan false s = s.
Proof.
  induction s as [|c r IH]; intros H; [reflexivity|].
  cbn [Str.snakeToCamelScan].
  replace (N.eqb c underscore) with false
    by (symmetry; apply N.eqb_neq; intros ->; apply H; now left).
  f_equal. apply IH. intros Hin. apply H. now right.
Qed.

Lemma upperLatin_underscore (c : codeunit) :
  upperLatin c = underscore -> c = underscore.
Proof.
  unfold upperLatin, isLowerAZ, inRange, underscore.
  destruct (N.leb 97 c && N.leb c 122)%bool eqn:Hc; [|auto].
  apply andb_true_iff in Hc. destruct Hc as [H1 H2].
  apply N.leb_le in H1, H2. lia.
Qed.

Lemma toUpperCase_nil : toUpperCase [] = [].
Proof. now rewrite toUpperCase_latin. Qed.

Lemma toLowerCase_nil : toLowerCase [] = [].
Proof. now rewrite toLowerCase_latin. Qed.

Lemma snakeToCamelScan_no_underscore (s : str) (afterUnderscores : bool) :
  forallb isBasicLatin s = true ->
  ~ In underscore (Str.snakeToCamelScan afterUnderscores s).
Proof.
  revert afterUnderscores. induction s as [|c r IH]; intros b Hs.
  - simpl. destruct b; [rewrite toUpperCase_nil|]; intros [].
  - cbn [forallb] in Hs. apply andb_true_iff in Hs. destruct Hs as [Hc Hr].
    cbn [Str.snakeToCamelScan].
    destruct (N.eqb c underscore) eqn:Heq; [now apply IH|].
    apply N.eqb_neq in Heq.
    destruct b.
    + destruct (isLineTerminator c).
      * rewrite toUpperCase_nil. simpl. intros [H|H]; [congruence|].
        revert H. now apply IH.
      * rewrite toUpperCase_latin by (simpl; now rewrite Hc).
        simpl. intros [H|H]; [now apply Heq, upperLatin_underscore|].
        revert H. now apply IH.
    + simpl. intros [H|H]; [congruence|]. revert H. now apply IH.
Qed.

(** [snakeToCamel] returns a text without underscores as it is, and leaves
    no underscore in Basic Latin text. *)
Theorem snakeToCamel_underscores (s : str) :
  (~ In underscore s -> Str.snakeToCamel s = s)
  /\ (forallb isBasicLatin s = true -> ~ In underscore (Str.snakeToCamel s)).
Proof.
  split.
  - apply snakeToCamelScan_fixed.
  - apply snakeToCamelScan_no_underscore.
Qed.

End SnakeCase.

Lemma snakeToCamel_underscores_witness :
  @Str.snakeToCamel BasicLatinEngine (lit "helloWorld") = lit "helloWorld"
  /\ ~ In underscore (@Str.snakeToCamel BasicLatinEngine (lit "__a__b_")).
Proof.
  split.
  - apply (proj1 (@snakeToCamel_underscores BasicLatinEngine (lit "helloWorld"))).
    vm_compute. intuition discriminate.
  - apply (proj2 (@snakeToCamel_underscores BasicLatinEngine (lit "__a__b_"))).
    reflexivity.
Defined.

Section SnakeRoundTrip.
Context {E : Engine}.
Local Open Scope N_scope.

Lemma isLowerAZ_bounds (c : codeunit) : isLowerAZ c = true -> 97 <= c <= 122.
Proof.
  unfold isLowerAZ, inRange. intros H. apply andb_true_iff in H.
  destruct H as [H1 H2]. apply N.leb_le in H1, H2. lia.
Qed.

Lemma raised_is_upper (d : codeunit) :
  isLowerAZ d = true -> isUpperAZ (d - 32) = true /\ d - 32 + 32 = d.
Proof.
  intros H. pose proof (isLowerAZ_bounds d H). split; [|lia].
  unfold isUpperAZ, inRange. apply andb_true_iff. split; apply N.leb_le; lia.
Qed.

Lemma toUpperCase_lower (d : codeunit) :
  isLowerAZ d = true -> toUpperCase [d] = [d - 32].
Proof.
  intros H. pose proof (isLowerAZ_bounds d H).
  rewrite toUpperCase_latin.
  - simpl. unfold upperLatin. now rewrite H.
  - simpl. unfold isBasicLatin. rewrite andb_true_r. apply N.ltb_lt. lia.
Qed.

Lemma lower_is_plain (d : codeunit) :
  isLowerAZ d = true ->
  N.eqb d underscore = false /\ isLineTerminator d = false /\ isUpperAZ d = false.
Proof.
  intros H. pose proof (isLowerAZ_bounds d H).
  unfold underscore, isLineTerminator, isUpperAZ, inRange.
  assert (Hne : forall k : N, k < 97 \/ 122 < k -> N.eqb d k = false)
    by (intros k Hk; apply N.eqb_neq; lia).
  rewrite !Hne by lia.
  replace (N.leb d 90) with false by (symmetry; apply N.leb_gt; lia).
  rewrite andb_false_r. repeat split.
Qed.

(** One word boundary: [_d] is read as the capital of [d] by [snakeToCamel]
    and written back as [_d] by [snake]. *)
Lemma replaceUpperRuns_raised (d : codeunit) (rest : str) :
  isLowerAZ d = true -> startsWithUpper rest = false ->
  Str.replaceUpperRuns [] ((d - 32) :: rest)
  = underscore :: d :: Str.replaceUpperRuns [] rest.
Proof.
  intros Hd Hrest. destruct (raised_is_upper d Hd) as [Hup Hback].
  cbn [Str.replaceUpperRuns]. rewrite Hup. cbn [app].
  assert (Hrun : Str.replaceRun [d - 32] = [underscore; d]).
  { unfold Str.replaceRun. rewrite (toLowerCase_upper _ Hup). now rewrite Hback. }
  destruct rest as [|e rest]; cbn [Str.replaceUpperRuns].
  - now rewrite Hrun.
  - simpl in Hrest. rewrite Hrest, Hrun. reflexivity.
Qed.

Lemma snakeToCamelScan_head (s : str) :
  snakeWords s = true ->
  match s with
  | [] => True
  | c :: _ => N.eqb c underscore = false
  end ->
  startsWithUpper (Str.snakeToCamelScan false s) = false.
Proof.
  destruct s as [|c r]; [reflexivity|]. intros Hw Hc.
  cbn [snakeWords] in Hw. rewrite Hc in Hw.
  apply andb_true_iff in Hw. destruct Hw as [Hup _]. apply negb_true_iff in Hup.
  cbn [Str.snakeToCamelScan]. rewrite Hc. exact Hup.
Qed.

Lemma replaceUpperRuns_snakeToCamelScan (s : str) :
  snakeWords s = true ->
  Str.replaceUpperRuns [] (Str.snakeToCamelScan false s) = s.
Proof.
  induction s as [|c r IH]; intros Hw; [reflexivity|].
  cbn [snakeWords] in Hw. cbn [Str.snakeToCamelScan].
  destruct (N.eqb c underscore) eqn:Hc.
  - apply N.eqb_eq in Hc. subst c.
    destruct r as [|d r']; [discriminate Hw|].
    apply andb_true_iff in Hw. destruct Hw as [Hw Hr].
    apply andb_true_iff in Hw. destruct Hw as [Hd Hnext].
    destruct (lower_is_plain d Hd) as [Hdu [Hdl Hdup]].
    specialize (IH Hr). cbn [Str.snakeToCamelScan] in IH |- *.
    rewrite Hdu in IH |- *. rewrite Hdl, (toUpperCase_lower d Hd). cbn [app].
    cbn [Str.replaceUpperRuns] in IH. rewrite Hdup in IH. simpl in IH.
    injection IH as IH.
    rewrite replaceUpperRuns_raised; [now rewrite IH|assumption|].
    cbn [snakeWords] in Hr. rewrite Hdu in Hr.
    apply andb_true_iff in Hr. destruct Hr as [_ Hr'].
    apply snakeToCamelScan_head; [assumption|].
    destruct r' as [|e r'']; [exact I|]. now apply negb_true_iff in Hnext.
  - apply andb_true_iff in Hw. destruct Hw as [Hup Hr]. apply negb_true_iff in Hup.
    cbn [Str.replaceUpperRuns]. rewrite Hup. simpl. f_equal. now apply IH.
Qed.

(** For a snake_case identifier [s] (no initial underscore, no capital, every
    underscore followed by a letter a-z that is not itself followed by an
    underscore), [snake(snakeToCamel(s))] is [s]. *)
Theorem snake_snakeToCamel (s : str) :
  snakeCase s = true -> Str.snake (Str.snakeToCamel s) = s.
Proof.
  unfold snakeCase. intros H. apply andb_true_iff in H. destruct H as [Hhead Hw].
  unfold Str.snake, Str.snakeToCamel.
  assert (Hstart : startsWithUpper (Str.snakeToCamelScan false s) = false).
  { apply snakeToCamelScan_head; [assumption|].
    destruct s; [exact I|]. now apply negb_true_iff in Hhead. }
  replace (Str.lowerFirstUpper (Str.snakeToCamelScan false s))
    with (Str.snakeToCamelScan false s).
  - now apply replaceUpperRuns_snakeToCamelScan.
  - destruct (Str.snakeToCamelScan false s) as [|c r]; [reflexivity|].
    simpl in Hstart. simpl. now rewrite Hstart.
Qed.

End SnakeRoundTrip.

Lemma snake_snakeToCamel_witness :
  @Str.snake BasicLatinEngine (@Str.snakeToCamel BasicLatinEngine (lit "hello_big_world"))
  = lit "hello_big_world".
Proof.
  apply (@snake_snakeToCamel BasicLatinEngine (lit "hello_big_world")). reflexivity.
Defined.

(** ** camel, capitalize and capitalizeAll: spaces and blank text *)

Section Words.
Context {E : Engine}.

Lemma concat_space_free (ws : list str) :
  (forall w, In w ws -> ~ In space w) -> ~ In space (concat ws).
Proof.
  intros H Hin. apply in_concat in Hin. destruct Hin as [w [Hw Hs]].
  exact (H w Hw Hs).
Qed.

(** The result of [camel] holds no space: the spaces of the input are the
    separators of the words, and no word gains one. *)
Theorem camel_no_space (s : str) : ~ In space (Str.camel s).
Proof.
  unfold Str.camel, reduce.
  pose proof (split_fields_free space (toLowerCase (Str.trim s))) as Hfree.
  destruct (split space (toLowerCase (Str.trim s))) as [|w ws]; [intros []|].
  simpl. rewrite reduceFrom_later, in_app_iff. intros [H|H].
  - revert H. apply Hfree. now left.
  - revert H. apply concat_space_free. intros w' Hw'.
    apply in_map_iff in Hw'. destruct Hw' as [w0 [<- Hw0]].
    apply capitalize_space_free, Hfree. now right.
Qed.

Lemma trim_blank (s : str) : forallb isWhiteSpace s = true -> Str.trim s = [].
Proof.
  intros H. unfold Str.trim, Str.replaceLeadingWhiteSpace.
  replace (dropWhile isWhiteSpace s) with (@nil N); [reflexivity|].
  induction s as [|c r IH]; [reflexivity|].
  simpl in H. apply andb_true_iff in H. destruct H as [Hc Hr].
  simpl. rewrite Hc. now apply IH.
Qed.

(** On a text made of white space only (the empty text included), [trim],
    [capitalize] and [camel] return the empty text. *)
Theorem blank_text (s : str) :
  forallb isWhiteSpace s = true ->
  Str.trim s = [] /\ Str.capitalize s = [] /\ Str.camel s = [].
Proof.
  intros H. pose proof (trim_blank s H) as Htrim.
  split; [exact Htrim|]. split.
  - unfold Str.capitalize. rewrite Htrim. simpl.
    now rewrite toUpperCase_nil, toLowerCase_nil.
  - unfold Str.camel. rewrite Htrim, toLowerCase_nil. reflexivity.
Qed.

Lemma split_app (sep : codeunit) (a b : str) :
  split sep (a ++ sep :: b) = split sep a ++ split sep b.
Proof.
  induction a as [|c a IH]; simpl.
  - now rewrite N.eqb_refl.
  - destruct (N.eqb c sep); [now rewrite IH|].
    rewrite IH. pose proof (split_not_nil sep a).
    destruct (split sep a); [congruence|reflexivity].
Qed.

Lemma join_app (sep : str) (l1 l2 : list str) :
  l1 <> [] -> l2 <> [] -> join sep (l1 ++ l2) = join sep l1 ++ sep ++ join sep l2.
Proof.
  intros H1 H2. induction l1 as [|w l1 IH]; [congruence|].
  destruct l1 as [|w' l1].
  - simpl. destruct l2; [congruence|reflexivity].
  - change (join sep ((w :: w' :: l1) ++ l2))
      with (w ++ sep ++ join sep ((w' :: l1) ++ l2)).
    rewrite IH by discriminate.
    change (join sep (w :: w' :: l1)) with (w ++ sep ++ join sep (w' :: l1)).
    now rewrite <- !app_assoc.
Qed.

Lemma capitalizeAll_app (a b : str) :
  Str.capitalizeAll (a ++ space :: b)
  = Str.capitalizeAll a ++ space :: Str.capitalizeAll b.
Proof.
  unfold Str.capitalizeAll. rewrite !capitalizeLoop_map, split_app, map_app.
  rewrite join_app; [reflexivity| |].
  - pose proof (split_not_nil space a). destruct (split space a); [congruence|discriminate].
  - pose proof (split_not_nil space b). destruct (split space b); [congruence|discriminate].
Qed.

(** [capitalizeAll] works field by field: on two texts joined by a space it
    returns its two results joined by a space, and on a text without spaces
    it is [capitalize]. *)
Theorem capitalizeAll_fields (a b : str) :
  Str.capitalizeAll (a ++ space :: b)
  = Str.capitalizeAll a ++ space :: Str.capitalizeAll b
  /\ (~ In space a -> Str.capitalizeAll a = Str.capitalize a).
Proof.
  split; [apply capitalizeAll_app|].
  intros H. unfold Str.capitalizeAll.
  rewrite capitalizeLoop_map, split_without_sep by assumption. reflexivity.
Qed.

Lemma noUpper_app (a b : str) :
  noUpper (a ++ b) = (noUpper a && noUpper b)%bool.
Proof. unfold noUpper. apply forallb_app. Qed.

(** On texts without capitals, [title] treats an underscore as a word
    boundary: the title of [a_b] is the title of [a], a space, and the title
    of [b]. *)
Theorem title_fields (a b : str) :
  noUpper a = true -> noUpper b = true ->
  Str.title (a ++ underscore :: b) = Str.title a ++ space :: Str.title b.
Proof.
  intros Ha Hb. unfold Str.title, Str.words.
  rewrite !snake_fixed; try assumption.
  - unfold replaceAll at 1. rewrite flat_map_app. cbn [flat_map].
    replace (N.eqb underscore underscore) with true by reflexivity.
    cbn [app]. apply capitalizeAll_app.
  - change (underscore :: b) with ([underscore] ++ b).
    rewrite !noUpper_app, Ha, Hb. reflexivity.
Qed.

End Words.

Lemma blank_text_witness :
  @Str.capitalize BasicLatinEngine (lit "  ") = [].
Proof.
  apply (@blank_text BasicLatinEngine (lit "  ")). reflexivity.
Defined.

Lemma title_fields_witness :
  @Str.title BasicLatinEngine (lit "hello_world")
  = @Str.title BasicLatinEngine (lit "hello") ++ space :: @Str.title BasicLatinEngine (lit "world").
Proof.
  apply (@title_fields BasicLatinEngine (lit "hello") (lit "world")); reflexivity.
Defined.

Lemma capitalizeAll_fields_witness :
  @Str.capitalizeAll BasicLatinEngine (lit "hello") = @Str.capitalize BasicLatinEngine (lit "hello").
Proof.
  apply (proj2 (@capitalizeAll_fields BasicLatinEngine (lit "hello") [])).
  vm_compute. intuition discriminate.
Defined.

(** ** detectObject and the substring of endsWith *)

Lemma streq_eq (a b : str) : streq a b = true <-> a = b.
Proof.
  revert b. induction a as [|x a IH]; intros [|y b]; simpl; split;
    try discriminate; try reflexivity.
  - intros H. apply andb_true_iff in H. destruct H as [Hxy H].
    apply N.eqb_eq in Hxy. apply IH in H. now subst.
  - intros H. injection H as -> ->. rewrite N.eqb_refl. now apply IH.
Qed.

(** [detectObject] answers [true] for the objects whose tag is [Object], and
    for nothing else: not for [undefined], [null], a boolean, a number or a
    string, nor for an object with another tag. *)
Theorem detectObject_plain (v : value) :
  Str.detectObject v = true <-> v = VObject (lit "Object").
Proof.
  unfold Str.detectObject.
  destruct (streq (Str.objectToString v) (lit "[object Object]")) eqn:H.
  - apply streq_eq in H. split; [intros _|reflexivity].
    unfold Str.objectToString in H.
    change (lit "[object Object]") with (lit "[object " ++ lit "Object" ++ lit "]") in H.
    apply app_inv_head in H.
    destruct v; try discriminate H.
    apply app_inv_tail in H. now subst.
  - split; [discriminate|]. intros ->. discriminate H.
Qed.

Section Substring.
Context {E : Engine}.


End Substring.


(** ** Case mapping of Basic Latin text: lower, upper, capitalize *)

Section LatinCase.
Local Open Scope N_scope.

Lemma letters_not_whitespace (c : codeunit) :
  65 <= c <= 122 -> isWhiteSpace c = false.
Proof.
  intros H. unfold isWhiteSpace, inRange.
  assert (Hne : forall k : N, k < 65 \/ 122 < k -> N.eqb c k = false)
    by (intros k Hk; apply N.eqb_neq; lia).
  rewrite !Hne by lia.
  replace (N.leb c 13) with false by (symmetry; apply N.leb_gt; lia).
  replace (N.leb 8192 c) with false by (symmetry; apply N.leb_gt; lia).
  now rewrite andb_false_r.
Qed.

Lemma lowerLatin_cases (c : codeunit) :
  (lowerLatin c = c /\ isUpperAZ c = false)
  \/ (lowerLatin c = c + 32 /\ 65 <= c <= 90).
Proof.
  unfold lowerLatin. destruct (isUpperAZ c) eqn:Hc; [right|left; auto].
  split; [reflexivity|now apply isUpperAZ_bounds].
Qed.

Lemma upperLatin_cases (c : codeunit) :
  (upperLatin c = c /\ isLowerAZ c = false)
  \/ (upperLatin c = c - 32 /\ 97 <= c <= 122).
Proof.
  unfold upperLatin. destruct (isLowerAZ c) eqn:Hc; [right|left; auto].
  split; [reflexivity|]. unfold isLowerAZ, inRange in Hc.
  apply andb_true_iff in Hc. destruct Hc as [H1 H2]. apply N.leb_le in H1, H2. lia.
Qed.

Lemma lowerLatin_whitespace (c : codeunit) : isWhiteSpace (lowerLatin c) = isWhiteSpace c.
Proof.
  destruct (lowerLatin_cases c) as [[-> _]|[-> H]]; [reflexivity|].
  rewrite !letters_not_whitespace by lia. reflexivity.
Qed.

Lemma upperLatin_whitespace (c : codeunit) : isWhiteSpace (upperLatin c) = isWhiteSpace c.
Proof.
  destruct (upperLatin_cases c) as [[-> _]|[-> H]]; [reflexivity|].
  rewrite !letters_not_whitespace by lia. reflexivity.
Qed.

Lemma not_upper_above (c : codeunit) : 90 < c -> isUpperAZ c = false.
Proof.
  intros H. unfold isUpperAZ, inRange.
  replace (N.leb c 90) with false by (symmetry; apply N.leb_gt; lia).
  apply andb_false_r.
Qed.

Lemma not_lower_below (c : codeunit) : c < 97 -> isLowerAZ c = false.
Proof.
  intros H. unfold isLowerAZ, inRange.
  replace (N.leb 97 c) with false by (symmetry; apply N.leb_gt; lia).
  reflexivity.
Qed.

Lemma lower_of_raised (c : codeunit) : 97 <= c <= 122 -> lowerLatin (c - 32) = c.
Proof.
  intros H. unfold lowerLatin, isUpperAZ, inRange.
  replace (N.leb 65 (c - 32)) with true by (symmetry; apply N.leb_le; lia).
  replace (N.leb (c - 32) 90) with true by (symmetry; apply N.leb_le; lia).
  simpl. lia.
Qed.

Lemma upper_of_lowered (c : codeunit) : 65 <= c <= 90 -> upperLatin (c + 32) = c.
Proof.
  intros H. unfold upperLatin, isLowerAZ, inRange.
  replace (N.leb 97 (c + 32)) with true by (symmetry; apply N.leb_le; lia).
  replace (N.leb (c + 32) 122) with true by (symmetry; apply N.leb_le; lia).
  simpl. lia.
Qed.

Lemma lowerLatin_absorbs (c : codeunit) :
  lowerLatin (lowerLatin c) = lowerLatin c /\ lowerLatin (upperLatin c) = lowerLatin c.
Proof.
  split.
  - destruct (lowerLatin_cases c) as [[Heq _]|[Heq H]]; rewrite Heq; [exact Heq|].
    unfold lowerLatin. now rewrite not_upper_above by lia.
  - destruct (upperLatin_cases c) as [[-> _]|[-> H]]; [reflexivity|].
    rewrite lower_of_raised by assumption.
    unfold lowerLatin. now rewrite not_upper_above by lia.
Qed.

Lemma upperLatin_absorbs (c : codeunit) :
  upperLatin (upperLatin c) = upperLatin c /\ upperLatin (lowerLatin c) = upperLatin c.
Proof.
  split.
  - destruct (upperLatin_cases c) as [[Heq _]|[Heq H]]; rewrite Heq; [exact Heq|].
    unfold upperLatin. now rewrite not_lower_below by lia.
  - destruct (lowerLatin_cases c) as [[-> _]|[-> H]]; [reflexivity|].
    rewrite upper_of_lowered by assumption.
    unfold upperLatin. now rewrite not_lower_below by lia.
Qed.

Lemma lowerLatin_latin (s : str) :
  forallb isBasicLatin s = true -> forallb isBasicLatin (List.map lowerLatin s) = true.
Proof.
  induction s as [|c r IH]; simpl; [reflexivity|]. intros H.
  apply andb_true_iff in H. destruct H as [Hc Hr]. rewrite (IH Hr), andb_true_r.
  unfold isBasicLatin in *. apply N.ltb_lt in Hc. apply N.ltb_lt.
  destruct (lowerLatin_cases c) as [[-> _]|[-> H]]; lia.
Qed.

Lemma upperLatin_latin (s : str) :
  forallb isBasicLatin s = true -> forallb isBasicLatin (List.map upperLatin s) = true.
Proof.
  induction s as [|c r IH]; simpl; [reflexivity|]. intros H.
  apply andb_true_iff in H. destruct H as [Hc Hr]. rewrite (IH Hr), andb_true_r.
  unfold isBasicLatin in *. apply N.ltb_lt in Hc. apply N.ltb_lt.
  destruct (upperLatin_cases c) as [[-> _]|[-> H]]; lia.
Qed.

End LatinCase.

Section LatinText.
Context {E : Engine}.

(** On Basic Latin text [lower] and [upper] are idempotent, and each undoes
    nothing that the other one keeps: lowering after raising is lowering,
    raising after lowering is raising. *)
Theorem lower_upper_latin (s : str) :
  forallb isBasicLatin s = true ->
  Str.lower (Str.lower s) = Str.lower s
  /\ Str.upper (Str.upper s) = Str.upper s
  /\ Str.lower (Str.upper s) = Str.lower s
  /\ Str.upper (Str.lower s) = Str.upper s.
Proof.
  intros H. unfold Str.lower, Str.upper.
  rewrite (toLowerCase_latin s H), (toUpperCase_latin s H).
  rewrite !toLowerCase_latin by (auto using lowerLatin_latin, upperLatin_latin).
  rewrite !toUpperCase_latin by (auto using lowerLatin_latin, upperLatin_latin).
  rewrite !map_map.
  repeat split; apply map_ext; intros c;
    first [apply lowerLatin_absorbs | apply upperLatin_absorbs].
Qed.

Lemma replaceTrailingWhiteSpace_fixed (s : str) :
  (forall (x : str) (c : codeunit), s = x ++ [c] -> isWhiteSpace c = false) ->
  Str.replaceTrailingWhiteSpace s = s.
Proof.
  induction s as [|d r IH]; intros Hlast; [reflexivity|].
  cbn [Str.replaceTrailingWhiteSpace].
  destruct (forallb isWhiteSpace (d :: r)) eqn:Hall.
  - exfalso. destruct (exists_last (l := d :: r) ltac:(discriminate)) as [x [c Hx]].
    pose proof (Hlast x c Hx) as Hc. rewrite Hx, forallb_app in Hall.
    simpl in Hall. rewrite Hc, andb_false_r in Hall. discriminate Hall.
  - f_equal. apply IH. intros x c Hx. apply (Hlast (d :: x) c). now rewrite Hx.
Qed.

Lemma trim_fixed (s : str) : trimmed s -> Str.trim s = s.
Proof.
  intros [Hhead Hlast]. unfold Str.trim, Str.replaceLeadingWhiteSpace.
  replace (dropWhile isWhiteSpace s) with s.
  - now apply replaceTrailingWhiteSpace_fixed.
  - destruct s as [|c r]; [reflexivity|]. simpl. now rewrite Hhead.
Qed.

Lemma trimmed_case_mapped (f g : codeunit -> codeunit) (c : codeunit) (r : str) :
  (forall x, isWhiteSpace (f x) = isWhiteSpace x) ->
  (forall x, isWhiteSpace (g x) = isWhiteSpace x) ->
  trimmed (c :: r) -> trimmed (f c :: List.map g r).
Proof.
  intros Hf Hg [Hhead Hlast]. split; [now rewrite Hf|].
  clear Hhead. revert c f Hf Hlast. induction r as [|e r IH]; intros c f Hf Hlast x d Hx.
  - destruct x as [|y x]; simpl in Hx.
    + injection Hx as <-. rewrite Hf. now apply (Hlast [] c).
    + injection Hx as _ Hx. destruct x; discriminate Hx.
  - destruct x as [|y x]; simpl in Hx; [discriminate Hx|].
    injection Hx as _ Hx. apply (IH e g Hg) with (x := x); [|exact Hx].
    intros x' d' Hx'. apply (Hlast (c :: x') d'). now rewrite Hx'.
Qed.

(** The result of [capitalize] on Basic Latin text: the trimmed text with its
    first letter raised and the others lowered. *)
Lemma capitalize_latin (s : str) :
  forallb isBasicLatin s = true ->
  Str.capitalize s
  = match Str.trim s with
    | [] => []
    | c :: r => upperLatin c :: List.map lowerLatin r
    end.
Proof.
  intros H. unfold Str.capitalize.
  assert (Htrim : forallb isBasicLatin (Str.trim s) = true).
  { apply forallb_forall. intros c Hc. apply trim_incl in Hc.
    exact (proj1 (forallb_forall _ _) H c Hc). }
  destruct (Str.trim s) as [|c r]; simpl in *.
  - now rewrite toUpperCase_nil, toLowerCase_nil.
  - apply andb_true_iff in Htrim. destruct Htrim as [Hc Hr].
    rewrite toUpperCase_latin by (simpl; now rewrite Hc).
    now rewrite toLowerCase_latin by assumption.
Qed.

(** On Basic Latin text [capitalize] is idempotent. *)
Theorem capitalize_idempotent_latin (s : str) :
  forallb isBasicLatin s = true ->
  Str.capitalize (Str.capitalize s) = Str.capitalize s.
Proof.
  intros H. rewrite (capitalize_latin s H).
  pose proof (trim_trimmed s) as Htrimmed.
  assert (Htrim : forallb isBasicLatin (Str.trim s) = true).
  { apply forallb_forall. intros c Hc. apply trim_incl in Hc.
    exact (proj1 (forallb_forall _ _) H c Hc). }
  destruct (Str.trim s) as [|c r].
  - unfold Str.capitalize. simpl. now rewrite toUpperCase_nil, toLowerCase_nil.
  - cbn [forallb] in Htrim. apply andb_true_iff in Htrim. destruct Htrim as [Hc Hr].
    rewrite capitalize_latin.
    + rewrite trim_fixed
        by (apply trimmed_case_mapped;
            auto using upperLatin_whitespace, lowerLatin_whitespace).
      rewrite (proj1 (upperLatin_absorbs c)), map_map. f_equal.
      apply map_ext. intros x. apply lowerLatin_absorbs.
    + change (upperLatin c :: List.map lowerLatin r)
        with (List.map upperLatin [c] ++ List.map lowerLatin r).
      rewrite forallb_app, upperLatin_latin, lowerLatin_latin; auto.
      simpl. now rewrite Hc.
Qed.

End LatinText.

Lemma lower_upper_latin_witness :
  @Str.lower BasicLatinEngine (@Str.upper BasicLatinEngine (lit "Hello World"))
  = @Str.lower BasicLatinEngine (lit "Hello World").
Proof.
  apply (@lower_upper_latin BasicLatinEngine (lit "Hello World")). reflexivity.
Defined.

Lemma capitalize_idempotent_latin_witness :
  @Str.capitalize BasicLatinEngine (@Str.capitalize BasicLatinEngine (lit " tEST "))
  = @Str.capitalize BasicLatinEngine (lit " tEST ").
Proof.
  apply (@capitalize_idempotent_latin BasicLatinEngine (lit " tEST ")). reflexivity.
Defined.

(** ** What the body of slugify computes *)

Lemma getSubstitution_plain (matched before after template : str) :
  ~ In dollar template -> getSubstitution matched before after template = template.
Proof.
  induction template as [|c r IH]; intros H; [reflexivity|].
  cbn [getSubstitution].
  replace (N.eqb c dollar) with false
    by (symmetry; apply N.eqb_neq; intros ->; apply H; now left).
  f_equal. apply IH. intros Hin. apply H. now right.
Qed.

Lemma not_combining_latin (s : str) :
  forallb isBasicLatin s = true ->
  filter (fun c => negb (isCombiningMark c)) s = s.
Proof.
  induction s as [|c r IH]; simpl; [reflexivity|]. intros H.
  apply andb_true_iff in H. destruct H as [Hc Hr].
  unfold isBasicLatin in Hc. apply N.ltb_lt in Hc.
  unfold isCombiningMark, inRange.
  replace (N.leb 768 c) with false by (symmetry; apply N.leb_gt; lia).
  simpl. f_equal. now apply IH.
Qed.

Section SlugifyChain.
Context {E : Engine}.

Lemma replaceSpaces_join (before s sep : str) :
  ~ In dollar sep -> Str.replaceSpaces before s sep = join sep (split space s).
Proof.
  intros Hsep. revert before. induction s as [|c r IH]; intros before; [reflexivity|].
  cbn [Str.replaceSpaces split].
  pose proof (split_not_nil space r) as Hne.
  destruct (N.eqb c space).
  - rewrite getSubstitution_plain, IH by assumption.
    destruct (split space r); [congruence|reflexivity].
  - rewrite IH. destruct (split space r) as [|w ws]; [congruence|].
    destruct ws; reflexivity.
Qed.

Lemma replaceSpaces_latin (before s sep : str) :
  ~ In dollar sep -> forallb isBasicLatin s = true -> forallb isBasicLatin sep = true ->
  forallb isBasicLatin (Str.replaceSpaces before s sep) = true.
Proof.
  intros Hdollar Hs Hsep. revert before.
  induction s as [|c r IH]; intros before; [reflexivity|].
  cbn [forallb] in Hs. apply andb_true_iff in Hs. destruct Hs as [Hc Hr].
  cbn [Str.replaceSpaces]. destruct (N.eqb c space).
  - rewrite getSubstitution_plain, forallb_app, Hsep by assumption. now apply IH.
  - cbn [forallb]. rewrite Hc. now apply IH.
Qed.

(** For Basic Latin text and a Basic Latin delimiter without dollar sign, the
    chain in the body of [slugify] computes the lowercased words of the
    trimmed text, split at single spaces and joined by the delimiter. *)
Theorem slugifyChain_latin (s sep : str) :
  forallb isBasicLatin s = true -> forallb isBasicLatin sep = true ->
  ~ In dollar sep ->
  Str.slugifyChain s sep
  = join sep (split space (List.map lowerLatin (Str.trim s))).
Proof.
  intros Hs Hsep Hdollar. unfold Str.slugifyChain.
  assert (Htrim : forallb isBasicLatin (Str.trim s) = true).
  { apply forallb_forall. intros c Hc. apply trim_incl in Hc.
    exact (proj1 (forallb_forall _ _) Hs c Hc). }
  rewrite (toLowerCase_latin _ Htrim).
  assert (Hlatin : forallb isBasicLatin
                     (Str.replaceSpaces [] (List.map lowerLatin (Str.trim s)) sep) = true)
    by (apply replaceSpaces_latin; auto using lowerLatin_latin).
  rewrite (normalizeNFD_latin _ Hlatin), (not_combining_latin _ Hlatin).
  now apply replaceSpaces_join.
Qed.

End SlugifyChain.

Lemma slugifyChain_latin_witness :
  @Str.slugifyChain BasicLatinEngine (lit " This  is a tesT ") (lit ":")
  = lit "this::is:a:test".
Proof.
  rewrite (@slugifyChain_latin BasicLatinEngine (lit " This  is a tesT ") (lit ":"));
    [reflexivity|reflexivity|reflexivity|].
  vm_compute. intuition discriminate.
Defined.
